(** * dict_script: glossary term extraction and reference rewriting

    A shallow embedding of [src/dict_script/dict_script.py] (and of the
    copy of [extract_glossary_terms] in [src/dict_script/regex.py]).

    Python [str] values are lists of characters.  A character is one of
    the 256 code points of Latin-1 (Rocq's [ascii]); the character classes
    [\s], [\w] and the case folding of [re.IGNORECASE] are those of
    CPython for these code points.  Offsets are natural numbers.  The
    regular expressions of the program are values of a small regex type
    run by a backtracking matcher with CPython's priorities (leftmost
    start, lazy and greedy repetition, ordered alternation, atomic
    lookahead).  Reading and writing the files is not modelled; of [main]
    the values it prints and the text it writes are, as a function of the
    text it read. *)

From Stdlib Require Import Ascii String.
From stdpp Require Import gmap strings list sorting.

(** ** Characters and strings *)

Abbreviation str := (list ascii).

(** A string literal as a list of characters. *)
Definition chars (s : string) : str := String.list_ascii_of_string s.

Definition between (lo hi n : nat) : bool := (lo <=? n) && (n <=? hi).

(** [str.isspace] / [\s] on one character: TAB..CR, FS..US, space, NEL, NBSP. *)
Definition isspace (c : ascii) : bool :=
  let n := nat_of_ascii c in
  between 9 13 n || between 28 32 n || (n =? 133) || (n =? 160).

(** [str.isalnum] on one character (ASCII letters and digits, and the
    Latin-1 letters, superscript digits and vulgar fractions). *)
Definition isalnum (c : ascii) : bool :=
  let n := nat_of_ascii c in
  between 48 57 n || between 65 90 n || between 97 122 n
  || (n =? 170) || (n =? 178) || (n =? 179) || (n =? 181)
  || between 185 186 n || between 188 190 n
  || between 192 214 n || between 216 246 n || between 248 255 n.

(** [\w]: alphanumeric or underscore. *)
Definition isword (c : ascii) : bool :=
  isalnum c || (nat_of_ascii c =? 95).

(** Simple lower-casing, as [re.IGNORECASE] applies it to both sides. *)
Definition lower (c : ascii) : ascii :=
  let n := nat_of_ascii c in
  if between 65 90 n || (between 192 222 n && negb (n =? 215))
  then ascii_of_nat (n + 32) else c.

Definition newline : ascii := "010"%char.

(** [s.lstrip()], [s.rstrip()], [s.strip()] without arguments. *)
Fixpoint lstrip (s : str) : str :=
  match s with
  | c :: s' => if isspace c then lstrip s' else s
  | [] => []
  end.

Definition rstrip (s : str) : str := reverse (lstrip (reverse s)).

Definition strip (s : str) : str := rstrip (lstrip s).

(** [s[i:j]] for [0 <= i], with Python's clamping at the end of [s]. *)
Definition slice (s : str) (i j : nat) : str := take (j - i) (drop i s).

(** [range(i, j)]. *)
Definition range (i j : nat) : list nat := seq i (j - i).

(** ** Regular expressions *)

Module Re.

(** The fragment of [re] syntax the program's four patterns are written
    in.  Every repetition in them is over a one-character item, so [Star]
    takes a character class. *)
Inductive regex : Type :=
| Eps                                         (* empty pattern *)
| Chr (p : ascii -> bool)                     (* one character in class p *)
| Seq (r1 r2 : regex)                         (* r1 r2 *)
| Alt (r1 r2 : regex)                         (* r1|r2, r1 tried first *)
| Star (greedy : bool) (p : ascii -> bool)    (* p* and p*? *)
| Group (n : nat) (r : regex)                 (* (r), capture group n *)
| Ahead (r : regex)                           (* (?=r) *)
| WordB                                       (* \b *)
| Dollar.                                     (* $ without re.MULTILINE *)

(** A position of the matcher in the subject: the character before it,
    the characters from it on, its offset, and the groups closed so far. *)
Record cursor : Type := Cursor {
  before : option ascii;
  ahead : str;
  offset : nat;
  groups : list (nat * (nat * nat))
}.

Definition word_opt (o : option ascii) : bool :=
  match o with Some c => isword c | None => false end.

(** [\b]: exactly one of the two neighbours is a word character. *)
Definition at_boundary (c : cursor) : bool :=
  xorb (word_opt (before c)) (word_opt (head (ahead c))).

(** [$]: at the end, or just before a newline that ends the subject. *)
Definition at_dollar (c : cursor) : bool :=
  match ahead c with
  | [] => true
  | [x] => Ascii.eqb x newline
  | _ => false
  end.

Definition advance (x : ascii) (rest : str) (c : cursor) : cursor :=
  Cursor (Some x) rest (S (offset c)) (groups c).

Definition close_group (n start : nat) (c : cursor) : cursor :=
  Cursor (before c) (ahead c) (offset c) ((n, (start, offset c)) :: groups c).

Section Matcher.
Context {R : Type}.

(** [p*?] followed by the continuation [k]: fewest repetitions first. *)
Fixpoint star_lazy (p : ascii -> bool) (k : cursor -> option R)
    (rest : str) (c : cursor) : option R :=
  match k c with
  | Some res => Some res
  | None =>
      match rest with
      | x :: rest' =>
          if p x then star_lazy p k rest' (advance x rest' c) else None
      | [] => None
      end
  end.

(** [p*] followed by [k]: most repetitions first. *)
Fixpoint star_greedy (p : ascii -> bool) (k : cursor -> option R)
    (rest : str) (c : cursor) : option R :=
  match rest with
  | x :: rest' =>
      if p x then
        match star_greedy p k rest' (advance x rest' c) with
        | Some res => Some res
        | None => k c
        end
      else k c
  | [] => k c
  end.
End Matcher.

(** Backtracking matcher in continuation-passing style: [run r c k] is
    the first way, in the engine's priority order, to match [r] at [c] so
    that the continuation [k] succeeds on what follows. *)
Fixpoint run (r : regex) (c : cursor) (k : cursor -> option cursor)
    : option cursor :=
  match r with
  | Eps => k c
  | Chr p =>
      match ahead c with
      | x :: rest => if p x then k (advance x rest c) else None
      | [] => None
      end
  | Seq r1 r2 => run r1 c (fun c' => run r2 c' k)
  | Alt r1 r2 =>
      match run r1 c k with
      | Some res => Some res
      | None => run r2 c k
      end
  | Star true p => star_greedy p k (ahead c) c
  | Star false p => star_lazy p k (ahead c) c
  | Group n r1 => run r1 c (fun c' => k (close_group n (offset c) c'))
  | Ahead r1 =>
      match run r1 c Some with
      | Some _ => k c
      | None => None
      end
  | WordB => if at_boundary c then k c else None
  | Dollar => if at_dollar c then k c else None
  end.

(** A match object: [m.start()], [m.end()] and the group spans. *)
Record rmatch : Type := Match {
  m_start : nat;
  m_end : nat;
  m_groups : list (nat * (nat * nat))
}.

(** One attempt at a fixed start.  With [must_advance] an empty match is
    not accepted (the scanner sets it after an empty match). *)
Definition match_at (r : regex) (must_advance : bool) (c : cursor)
    : option rmatch :=
  match run r c (fun c' =>
          if must_advance && (offset c' =? offset c) then None else Some c')
  with
  | Some c' => Some (Match (offset c) (offset c') (groups c'))
  | None => None
  end.

(** [search]: the first start, from [c] rightwards and up to the end of
    the subject inclusive, where the pattern matches.  [must_advance]
    only constrains the first attempt. *)
Fixpoint search (r : regex) (must_advance : bool) (bef : option ascii)
    (rest : str) (pos : nat) : option rmatch :=
  match match_at r must_advance (Cursor bef rest pos []) with
  | Some m => Some m
  | None =>
      match rest with
      | x :: rest' => search r false (Some x) rest' (S pos)
      | [] => None
      end
  end.

(** The character before offset [pos] of [text]. *)
Definition char_before (text : str) (pos : nat) : option ascii :=
  match pos with
  | 0 => None
  | S p => text !! p
  end.

(** The scanner behind [finditer] and [findall]: search from the end of
    the previous match; after an empty match the next one must advance. *)
Fixpoint scan (fuel : nat) (r : regex) (text : str) (start : nat)
    (must_advance : bool) : list rmatch :=
  match fuel with
  | 0 => []
  | S fuel' =>
      match search r must_advance (char_before text start)
              (drop start text) start with
      | Some m =>
          m :: scan fuel' r text (m_end m) (m_end m =? m_start m)
      | None => []
      end
  end.

(** Every match either moves past a character or is empty and forces the
    next one to advance, so twice the length (plus the two attempts at
    the end) bounds the number of matches. *)
Definition finditer (r : regex) (text : str) : list rmatch :=
  scan (2 * length text + 2) r text 0 false.

(** [m.group(n)]: the text of the last closing of group [n]. *)
Definition group (text : str) (m : rmatch) (n : nat) : str :=
  match list_find (fun g => g.1 = n) (m_groups m) with
  | Some (_, (_, (i, j))) => slice text i j
  | None => []
  end.

(** [re.findall] for a pattern with two groups: the pairs of group texts. *)
Definition findall2 (r : regex) (text : str) : list (str * str) :=
  map (fun m => (group text m 1, group text m 2)) (finditer r text).

(** Pattern builders. *)
Definition is_char (x : ascii) : ascii -> bool := fun y => Ascii.eqb y x.
Definition is_char_nocase (x : ascii) : ascii -> bool :=
  fun y => Ascii.eqb (lower y) (lower x).
Definition any_char : ascii -> bool := fun _ => true.            (* . with DOTALL *)
Definition not_newline : ascii -> bool := fun y => negb (Ascii.eqb y newline).

(** A literal piece of pattern text. *)
Definition lit (s : str) : regex := foldr (fun x r => Seq (Chr (is_char x)) r) Eps s.

(** [re.escape(name)] compiled under [re.IGNORECASE]: the characters of
    [name], each taken literally and compared up to case.  On the code
    points modelled two characters are equal up to case when [lower]
    sends them to the same character. *)
Definition lit_nocase (s : str) : regex :=
  foldr (fun x r => Seq (Chr (is_char_nocase x)) r) Eps s.

End Re.

(** ** Insertion-ordered dictionaries and stable sorting *)

(** A Python [dict] whose iteration order matters: the association list
    of its items in insertion order, keys distinct. *)
Module Dict.
Section Dict.
Context {K V : Type} `{EqDecision K}.

(** [d[k] = v]: a present key keeps its place and takes the new value,
    a new key goes last. *)
Fixpoint set (k : K) (v : V) (d : list (K * V)) : list (K * V) :=
  match d with
  | [] => [(k, v)]
  | (k', v') :: d' =>
      if decide (k' = k) then (k, v) :: d' else (k', v') :: set k v d'
  end.

(** [d.get(k)]. *)
Fixpoint get (k : K) (d : list (K * V)) : option V :=
  match d with
  | [] => None
  | (k', v') :: d' => if decide (k' = k) then Some v' else get k d'
  end.

(** [{k: v for k, v in l}]. *)
Definition of_list (l : list (K * V)) : list (K * V) :=
  foldl (fun d kv => set kv.1 kv.2 d) [] l.
End Dict.
End Dict.

(** [list.sort(key=...)] is stable.  [sort_by before key l] is the stable
    sort that puts [x] ahead of [y] when [before (key x) (key y)]; items
    with equal keys keep their order (also under [reverse=True]). *)
Section StableSort.
Context {A : Type} (before : nat -> nat -> bool) (key : A -> nat).

Fixpoint insert_by (x : A) (l : list A) : list A :=
  match l with
  | [] => [x]
  | y :: l' =>
      if before (key y) (key x) then y :: insert_by x l' else x :: l
  end.

Definition sort_by (l : list A) : list A := foldr insert_by [] l.
End StableSort.

(** In a list sorted by [before], [x] may stand ahead of [y]: [y] does
    not have to come first. *)
Definition may_precede {A : Type} (before : nat -> nat -> bool)
    (key : A -> nat) (x y : A) : Prop :=
  before (key y) (key x) = false.

Definition ascending (a b : nat) : bool := a <? b.
Definition descending (a b : nat) : bool := b <? a.

(** ** The program *)

Import Re.

(** [any(s <= index < e for s, e in spans)] *)
Definition inside_any (index : nat) (spans : list (nat * nat)) : bool :=
  existsb (fun se => (se.1 <=? index) && (index <? se.2)) spans.

Definition seqs (rs : list regex) : regex := foldr Seq Eps rs.

Definition marker : str := chars "\newglossaryentry".

(** [\\newglossaryentry\{(.*?)\}\s*\{.*?name=\{(.*?)\}] with [re.DOTALL] *)
Definition entry_pattern : regex :=
  seqs [lit marker; lit (chars "{"); Group 1 (Star false any_char);
        lit (chars "}"); Star true isspace; lit (chars "{");
        Star false any_char; lit (chars "name={");
        Group 2 (Star false any_char); lit (chars "}")].

(** [\\newglossaryentry\{(.*?)\}\s*\{.*?\}(?=\s*\\newglossaryentry|$)]
    with [re.DOTALL] *)
Definition definition_pattern : regex :=
  seqs [lit marker; lit (chars "{"); Group 1 (Star false any_char);
        lit (chars "}"); Star true isspace; lit (chars "{");
        Star false any_char; lit (chars "}");
        Ahead (Alt (Seq (Star true isspace) (lit marker)) Dollar)].

(** [\\gls\{.*?\}] (no flags: the dot does not match a newline) *)
Definition gls_pattern : regex :=
  seqs [lit (chars "\gls"); lit (chars "{"); Star false not_newline;
        lit (chars "}")].

(** [rf'\b{re.escape(name)}\b'] with [re.IGNORECASE] *)
Definition term_pattern (name : str) : regex :=
  seqs [WordB; lit_nocase name; WordB].

Definition extract_glossary_terms (tex_text : str) : list (str * str) :=
  let entries := findall2 entry_pattern tex_text in
  Dict.of_list (map (fun e => (strip e.1, strip e.2)) entries).

(** A pending replacement [(start, end, replacement_text, name)]. *)
Record replacement : Type := Replacement {
  r_start : nat;
  r_end : nat;
  r_text : str;
  r_name : str
}.

(** Step 1: [glossary_defs], key -> (start, end); a later definition of
    the same key overwrites the earlier one. *)
Definition glossary_defs (tex_text : str) : gmap str (nat * nat) :=
  foldl (fun defs m => <[group tex_text m 1 := (m_start m, m_end m)]> defs)
        ∅ (finditer definition_pattern tex_text).

(** Step 2: [gls_spans]. *)
Definition gls_spans (tex_text : str) : list (nat * nat) :=
  map (fun m => (m_start m, m_end m)) (finditer gls_pattern tex_text).

(** [f'\\gls{{{term}}}'] *)
Definition gls_ref (term : str) : str := chars "\gls{" ++ term ++ chars "}".

(** The body of the inner loop of step 3 for one match [m] of [name]:
    [None] where the source says [continue].  [glossary_defs.get(term)]
    is [None] or a pair, and a pair is always true in [if def_span and]. *)
Definition candidate (tex_text : str) (term name : str) (m : rmatch)
    : option replacement :=
  let start := m_start m in
  let end_ := m_end m in
  if inside_any start (gls_spans tex_text) then None
  else
    match glossary_defs tex_text !! term with
    | Some def_span =>
        if (def_span.1 <=? start) && (start <? def_span.2) then None
        else Some (Replacement start end_ (gls_ref term) name)
    | None => Some (Replacement start end_ (gls_ref term) name)
    end.

(** Step 3: the [replacements] list, in the order of [glossary.items()]
    (the insertion order of the mapping) and, for each key, in scan
    order. *)
Definition collect (tex_text : str) (glossary : list (str * str))
    : list replacement :=
  flat_map (fun tn =>
      omap (candidate tex_text tn.1 tn.2)
           (finditer (term_pattern tn.2) tex_text))
    glossary.

(** The state of the loop of step 4. *)
Record progress : Type := Progress {
  updated_text : str;
  occupied : gset nat;
  changes : list (str * nat)
}.

Definition claimed (occ : gset nat) (r : replacement) : bool :=
  existsb (fun i => bool_decide (i ∈ occ)) (range (r_start r) (r_end r)).

Definition claim (occ : gset nat) (r : replacement) : gset nat :=
  foldl (fun o i => {[i]} ∪ o) occ (range (r_start r) (r_end r)).

(** One iteration of the loop of step 4. *)
Definition apply_one (st : progress) (r : replacement) : progress :=
  if claimed (occupied st) r then st
  else
    Progress
      (take (r_start r) (updated_text st) ++ r_text r
         ++ drop (r_end r) (updated_text st))
      (claim (occupied st) r)
      (changes st ++ [(r_name r, r_start r)]).

Definition replace_terms_with_gls (tex_text : str)
    (glossary : list (str * str)) : str * list (str * nat) :=
  let replacements := collect tex_text glossary in
  let replacements := sort_by descending r_start replacements in
  let st := foldl apply_one (Progress tex_text ∅ []) replacements in
  (updated_text st, sort_by ascending snd (changes st)).

(** What [main] of [dict_script.py] hands to [print] and to
    [write_text], as a function of the text it read: the number of terms
    found, the number of replacements applied, the records of the
    preview [changes[:10]], and the text written. *)
Record main_result : Type := MainResult {
  found : nat;
  applied_count : nat;
  preview : list (str * nat);
  written : str
}.

Definition main (tex_text : str) : main_result :=
  let glossary := extract_glossary_terms tex_text in
  let '(updated_text, changes) := replace_terms_with_gls tex_text glossary in
  MainResult (length glossary) (length changes) (take 10 changes) updated_text.

(** ** Ranges claimed by the loop of step 4 *)

(** [r] covers the original-text position [p]. *)
Definition covers (r : replacement) (p : nat) : Prop :=
  r_start r ≤ p < r_end r.

(** Two replacements overlap when they cover a common position. *)
Definition overlap (r1 r2 : replacement) : Prop :=
  ∃ p, covers r1 p ∧ covers r2 p.

(** The change record of an applied replacement. *)
Definition record (r : replacement) : str * nat := (r_name r, r_start r).

(** The replacements of [l] on which the loop takes the applying branch,
    when it starts with the claimed set [occ]. *)
Fixpoint applied_from (occ : gset nat) (l : list replacement)
    : list replacement :=
  match l with
  | [] => []
  | r :: l' =>
      if claimed occ r then applied_from occ l'
      else r :: applied_from (claim occ r) l'
  end.

(** The processing order of step 4 and the replacements applied. *)
Definition pending (tex_text : str) (glossary : list (str * str))
    : list replacement :=
  sort_by descending r_start (collect tex_text glossary).

Definition applied (tex_text : str) (glossary : list (str * str))
    : list replacement :=
  applied_from ∅ (pending tex_text glossary).

(** The loop state after the replacements [l] have been processed. *)
Definition state_after (tex_text : str) (l : list replacement) : progress :=
  foldl apply_one (Progress tex_text ∅ []) l.

(** The outcome of the test of the loop of step 4 at the turn of [r],
    reached after the replacements [before_r] have been processed. *)
Definition applied_at_turn (tex_text : str) (before_r : list replacement)
    (r : replacement) : bool :=
  negb (claimed (occupied (state_after tex_text before_r)) r).

(** The overlap rule as the specification words it: of two overlapping
    pending replacements, the one processed first is the one applied. *)
Definition first_processed_wins (tex_text : str) (glossary : list (str * str))
    : Prop :=
  ∀ l1 r1 l2 r2 l3,
    pending tex_text glossary = l1 ++ r1 :: l2 ++ r2 :: l3 →
    overlap r1 r2 →
    applied_at_turn tex_text l1 r1 = true
    ∧ applied_at_turn tex_text (l1 ++ r1 :: l2) r2 = false.

(** Self-exclusion as the specification words it, for one entry
    [(term, name)] whose definition span step 1 has located and one match
    [m] of [name]: inside the entry's own span [m] is not replaced by a
    reference to [term], inside another entry's span (and outside every
    reference span and the own span) it is. *)
Definition self_excluded_else_replaced (tex_text : str)
    (glossary : list (str * str)) (term name : str) (m : rmatch) : Prop :=
  ∀ own, glossary_defs tex_text !! term = Some own →
    (own.1 ≤ m_start m < own.2 →
     ∀ r, r ∈ applied tex_text glossary → r_text r = gls_ref term →
          r_start r ≠ m_start m)
    ∧ (∀ other span, other ≠ term →
         glossary_defs tex_text !! other = Some span →
         span.1 ≤ m_start m < span.2 →
         inside_any (m_start m) (gls_spans tex_text) = false →
         ¬ own.1 ≤ m_start m < own.2 →
         Replacement (m_start m) (m_end m) (gls_ref term) name
           ∈ applied tex_text glossary).

(** A string without leading and trailing whitespace. *)
Definition trimmed (s : str) : Prop :=
  (∀ c, head s = Some c → isspace c = false)
  ∧ (∀ c, last s = Some c → isspace c = false).

(** ** Notions used to state what the scanner finds *)

(** The matcher has moved from [c] to [c'] by consuming characters. *)
Definition extends (c c' : cursor) : Prop :=
  offset c ≤ offset c'
  ∧ offset c' + length (ahead c') = offset c + length (ahead c).

(** The cursor with which the scanner tries offset [pos] of [text]. *)
Definition cursor_at (text : str) (pos : nat) : cursor :=
  Cursor (char_before text pos) (drop pos text) pos [].

(** What is left to scan: twice the characters left, plus one while an
    empty match is still allowed at the current offset. *)
Definition scan_measure (text : str) (start : nat) (must_advance : bool) : nat :=
  2 * (length text - start) + (if must_advance then 0 else 1).

(** [rest] begins with [name], up to case. *)
Fixpoint nocase_prefix (name rest : str) : bool :=
  match name, rest with
  | [], _ => true
  | x :: name', y :: rest' => is_char_nocase x y && nocase_prefix name' rest'
  | _ :: _, [] => false
  end.

(** The cursor [n] characters after [c]. *)
Definition skip (n : nat) (c : cursor) : cursor :=
  Cursor (match n with
          | 0 => before c
          | S n' => ahead c !! n'
          end)
         (drop n (ahead c)) (offset c + n) (groups c).

(** The spans of the candidate occurrences of [name] in [text]. *)
Definition candidate_spans (name text : str) : list (nat * nat) :=
  map (λ m, (m_start m, m_end m)) (finditer (term_pattern name) text).

(** A whole-word occurrence of [name] in [text], as the specification
    words it: [text[s:e]] is [name] up to case, and neither the character
    before [s] nor the one at [e] is a word character. *)
Definition whole_word_occurrence (name text : str) (s e : nat) : Prop :=
  e = s + length name
  ∧ e ≤ length text
  ∧ lower <$> slice text s e = lower <$> name
  ∧ word_opt (char_before text s) = false
  ∧ word_opt (text !! e) = false.

(** The candidates are exactly the whole-word occurrences. *)
Definition candidates_are_whole_words (name text : str) : Prop :=
  ∀ s e, (s, e) ∈ candidate_spans name text ↔ whole_word_occurrence name text s e.

(** The text of the span [s, e) is not empty and has a word character
    at both of its ends. *)
Definition word_edged (text : str) (s e : nat) : Prop :=
  s < e
  ∧ word_opt (text !! s) = true
  ∧ word_opt (text !! (e - 1)) = true.



(** ** Notions used for the further properties *)

(** One splice of the loop of step 4:
    [updated_text[:start] + repl + updated_text[end:]]. *)
Definition splice (updated : str) (r : replacement) : str :=
  take (r_start r) updated ++ r_text r ++ drop (r_end r) updated.

(** The text built from left to right: the original text from [pos] on,
    with each replacement of [rs] (in ascending order) put in place of
    its span. *)
Fixpoint assemble (text : str) (pos : nat) (rs : list replacement) : str :=
  match rs with
  | [] => drop pos text
  | r :: rs' =>
      slice text pos (r_start r) ++ r_text r ++ assemble text (r_end r) rs'
  end.

(** An occurrence of [name] in [text] delimited the way the term pattern
    asks for it: [text[s:e]] is [name] up to case, and [\b] holds at [s]
    and at [e]. *)
Definition delimited_occurrence (name text : str) (s e : nat) : Prop :=
  e = s + length name
  ∧ e ≤ length text
  ∧ lower <$> slice text s e = lower <$> name
  ∧ at_boundary (cursor_at text s) = true
  ∧ at_boundary (cursor_at text e) = true.

(** [rest] begins with the literal text [s]. *)
Fixpoint starts_with (s rest : str) : bool :=
  match s, rest with
  | [], _ => true
  | x :: s', y :: rest' => is_char x y && starts_with s' rest'
  | _ :: _, [] => false
  end.

(** The cursor [c] with the list of closed groups replaced by [g]. *)
Definition regroup (g : list (nat * (nat * nat))) (c : cursor) : cursor :=
  Cursor (before c) (ahead c) (offset c) g.

(** What the lookahead of the definition pattern accepts at offset [e]:
    whitespace and then the marker of another definition, or the end of
    the text, or a newline that ends the text. *)
Definition definition_may_end (text : str) (e : nat) : Prop :=
  (∃ w, (∀ i x, e ≤ i < e + w → text !! i = Some x → isspace x = true)
        ∧ slice text (e + w) (e + w + length marker) = marker)
  ∨ e = length text
  ∨ (S e = length text ∧ text !! e = Some newline).

(** Two replacements that differ at most in the recorded display name. *)
Definition same_edit (r r' : replacement) : Prop :=
  r_start r = r_start r' ∧ r_end r = r_end r' ∧ r_text r = r_text r'.

(** Two mappings with the same keys in the same order, and display names
    that are equal up to letter case. *)
Definition same_up_to_case (g g' : list (str * str)) : Prop :=
  Forall2 (λ a b, a.1 = b.1 ∧ lower <$> a.2 = lower <$> b.2) g g'.

(** ** Notions used for the second run *)








(** ** Sample inputs *)

(** Three display names whose occurrences in [a b c d] overlap in a chain. *)
Definition chain_text : str := chars "a b c d".
Definition chain_glossary : list (str * str) :=
  [(chars "k1", chars "a b"); (chars "k2", chars "b c");
   (chars "k3", chars "c d")].

(** The scenario of the specification (mapping [cpp -> C++]). *)
Definition scenario_text : str :=
  chars "\newglossaryentry{cpp}{name={C++}, description={...}} C++ is fast. \gls{cpp} already marked. The term cpp itself unmarked.".
Definition scenario_glossary : list (str * str) := [(chars "cpp", chars "C++")].

(** A definition whose key is written with blanks around it. *)
Definition padded_key_text : str := chars "\newglossaryentry{ cpp }{name={cat}}".

(** A definition with an empty [name=] field after two words of body text. *)
Definition empty_name_text : str := chars "ab cd \newglossaryentry{k}{name={}}".

(** The offsets of [text] (its end included) at which [\b] holds. *)
Definition boundary_offsets (text : str) : list nat :=
  filter (λ i, at_boundary (cursor_at text i) = true) (seq 0 (S (length text))).

(** Three definitions; the display name of [k] occurs in the description
    of [d], and the display name of [k2] is its last word. *)
Definition nested_names_text : str :=
  chars "\newglossaryentry{d}{name={q}, description={a b}}\newglossaryentry{k}{name={a b}}\newglossaryentry{k2}{name={b}}".

(** The key [a] defined twice, the first time with blanks around key
    and name. *)
Definition duplicate_key_text : str :=
  chars "\newglossaryentry{ a }{name={ x }}\newglossaryentry{a}{name={y}}".

(** A display name next to longer words that contain it. *)
Definition cat_text : str := chars "cat category concatenate CAT".



(** An existing reference between two plain occurrences. *)
Definition reference_text : str := chars "cat \gls{cat} cat".

(** A mapping with an empty display name beside a plain one. *)
Definition empty_beside_glossary : list (str * str) :=
  [(chars "k1", chars "a b"); (chars "k2", [])].

(** * Verification *)

Lemma elem_of_range (p i j : nat) : p ∈ range i j ↔ i ≤ p < j.
Proof. unfold range. rewrite elem_of_seq. lia. Qed.

Lemma claimed_true (occ : gset nat) (r : replacement) :
  claimed occ r = true ↔ ∃ p, covers r p ∧ p ∈ occ.
Proof.
  unfold claimed, covers. rewrite existsb_exists. split.
  - intros (p & Hin & Hocc). exists p.
    apply list_elem_of_In, elem_of_range in Hin.
    apply bool_decide_eq_true in Hocc. done.
  - intros (p & Hc & Hocc). exists p. split.
    + by apply list_elem_of_In, elem_of_range.
    + by apply bool_decide_eq_true.
Qed.

Lemma claimed_false (occ : gset nat) (r : replacement) :
  claimed occ r = false ↔ ∀ p, covers r p → p ∉ occ.
Proof.
  rewrite <- not_true_iff_false, claimed_true. split.
  - intros H p Hc Hocc. apply H. by exists p.
  - intros H (p & Hc & Hocc). by apply (H p).
Qed.

Lemma elem_of_claim_list (occ : gset nat) (l : list nat) (p : nat) :
  p ∈ foldl (fun o i => {[i]} ∪ o) occ l ↔ p ∈ occ ∨ p ∈ l.
Proof.
  revert occ. induction l as [|i l IH]; intros occ; simpl.
  - split; [by left|]. by intros [?|?%elem_of_nil].
  - rewrite IH, elem_of_union, elem_of_singleton, elem_of_cons. tauto.
Qed.

Lemma elem_of_claim (occ : gset nat) (r : replacement) (p : nat) :
  p ∈ claim occ r ↔ p ∈ occ ∨ covers r p.
Proof. unfold claim, covers. by rewrite elem_of_claim_list, elem_of_range. Qed.

(** The loop's change list and claimed set, in terms of [applied_from]. *)
Lemma changes_foldl (st : progress) (l : list replacement) :
  changes (foldl apply_one st l)
  = changes st ++ map record (applied_from (occupied st) l).
Proof.
  revert st. induction l as [|r l IH]; intros st; simpl.
  - by rewrite app_nil_r.
  - rewrite IH. unfold apply_one.
    destruct (claimed (occupied st) r); simpl; [done|].
    by rewrite <- app_assoc.
Qed.

Lemma occupied_foldl (st : progress) (l : list replacement) (p : nat) :
  p ∈ occupied (foldl apply_one st l)
  ↔ p ∈ occupied st ∨ ∃ r, r ∈ applied_from (occupied st) l ∧ covers r p.
Proof.
  revert st. induction l as [|r l IH]; intros st; simpl.
  - split; [by left|]. intros [?|(r & Hr & _)]; [done|]. by apply elem_of_nil in Hr.
  - rewrite IH. unfold apply_one.
    destruct (claimed (occupied st) r) eqn:Hc; simpl; [done|].
    rewrite elem_of_claim. split.
    + intros [[?|?]|(r' & Hr' & ?)]; [by left| |].
      * right. exists r. split; [apply list_elem_of_here|done].
      * right. exists r'. split; [by apply list_elem_of_further|done].
    + intros [?|(r' & Hr' & ?)]; [by left; left|].
      apply elem_of_cons in Hr' as [->|Hr']; [by left; right|].
      right. by exists r'.
Qed.

Lemma applied_from_sublist (occ : gset nat) (l : list replacement) :
  sublist (applied_from occ l) l.
Proof.
  revert occ. induction l as [|r l IH]; intros occ; simpl; [done|].
  destruct (claimed occ r).
  - by apply sublist_cons.
  - by apply sublist_skip.
Qed.

(** Nothing applied covers a position that was claimed at the start. *)
Lemma applied_from_fresh (occ : gset nat) (l : list replacement) r p :
  r ∈ applied_from occ l → covers r p → p ∉ occ.
Proof.
  revert occ. induction l as [|r0 l IH]; intros occ; simpl.
  - by intros ?%elem_of_nil.
  - destruct (claimed occ r0) eqn:Hc; [by apply IH|].
    intros [->|Hin]%elem_of_cons Hcov.
    + by eapply claimed_false.
    + specialize (IH _ Hin Hcov). rewrite elem_of_claim in IH. tauto.
Qed.

(** Applied replacements at different places of the list are disjoint. *)
Lemma applied_from_disjoint (occ : gset nat) (l : list replacement) i j ri rj :
  i < j →
  applied_from occ l !! i = Some ri →
  applied_from occ l !! j = Some rj →
  ¬ overlap ri rj.
Proof.
  revert occ i j. induction l as [|r0 l IH]; intros occ i j Hij; simpl.
  - by rewrite lookup_nil.
  - destruct (claimed occ r0) eqn:Hc; [by apply IH|].
    destruct i as [|i]; simpl.
    + intros [= ->]. destruct j as [|j]; [lia|]. simpl. intros Hj (p & H1 & H2).
      apply list_elem_of_lookup_2 in Hj.
      apply (applied_from_fresh _ _ _ _ Hj H2). apply elem_of_claim. by right.
    + destruct j as [|j]; [lia|]. simpl. apply IH. lia.
Qed.

(** ** The stable sort *)

Section StableSortFacts.
Context {A : Type} (before : nat → nat → bool) (key : A → nat).
Hypothesis before_asym : ∀ a b, before a b = true → before b a = false.
Hypothesis before_negtrans :
  ∀ a b c, before a b = false → before b c = false → before a c = false.

Lemma insert_by_perm (x : A) (l : list A) : insert_by before key x l ≡ₚ x :: l.
Proof.
  induction l as [|y l IH]; simpl; [done|].
  destruct (before (key y) (key x)); [|done].
  rewrite IH. apply Permutation_swap.
Qed.

Lemma sort_by_perm (l : list A) : sort_by before key l ≡ₚ l.
Proof.
  induction l as [|x l IH]; simpl; [done|].
  by rewrite insert_by_perm, IH.
Qed.

Lemma insert_by_sorted (x : A) (l : list A) :
  StronglySorted (may_precede before key) l → StronglySorted (may_precede before key) (insert_by before key x l).
Proof.
  induction 1 as [|y l Hl IH Hy]; simpl.
  - repeat constructor.
  - destruct (before (key y) (key x)) eqn:Hyx.
    + constructor; [done|].
      rewrite insert_by_perm. constructor; [|done].
      by apply before_asym.
    + constructor; [by constructor|].
      constructor; [done|].
      eapply Forall_impl; [exact Hy|]. intros z Hz.
      unfold may_precede in *. by eapply before_negtrans.
Qed.

Lemma sort_by_sorted (l : list A) : StronglySorted (may_precede before key) (sort_by before key l).
Proof.
  induction l as [|x l IH]; simpl; [constructor|].
  by apply insert_by_sorted.
Qed.

(** Stability: the items with one given key keep their order. *)
Lemma insert_by_stable (n : nat) (x : A) (l : list A) :
  filter (λ y, key y = n) (insert_by before key x l)
  = filter (λ y, key y = n) (x :: l).
Proof.
  induction l as [|y l IH]; simpl; [done|].
  destruct (before (key y) (key x)) eqn:Hyx; [|done].
  rewrite !filter_cons in *. rewrite IH.
  destruct (decide (key x = n)) as [Hx|]; [|done].
  destruct (decide (key y = n)) as [Hy|]; [|done].
  rewrite Hx, Hy in Hyx. by rewrite (before_asym _ _ Hyx) in Hyx.
Qed.

Lemma sort_by_stable (n : nat) (l : list A) :
  filter (λ y, key y = n) (sort_by before key l) = filter (λ y, key y = n) l.
Proof.
  induction l as [|x l IH]; simpl; [done|].
  rewrite insert_by_stable, !filter_cons. by rewrite IH.
Qed.

Lemma sort_by_lookup (l : list A) (i j : nat) (x y : A) :
  i < j →
  sort_by before key l !! i = Some x →
  sort_by before key l !! j = Some y →
  before (key y) (key x) = false.
Proof.
  intros Hij Hi Hj.
  pose proof (sort_by_sorted l) as Hs.
  revert i j Hij Hi Hj. induction Hs as [|z s Hs IH Hz]; intros i j Hij.
  - by rewrite lookup_nil.
  - destruct j as [|j]; [lia|]. destruct i as [|i]; simpl.
    + intros [= ->] Hj. rewrite Forall_forall in Hz.
      apply Hz. by eapply list_elem_of_lookup_2.
    + apply IH. lia.
Qed.
End StableSortFacts.

Lemma ascending_asym a b : ascending a b = true → ascending b a = false.
Proof. unfold ascending. rewrite Nat.ltb_lt, Nat.ltb_ge. lia. Qed.

Lemma ascending_negtrans a b c :
  ascending a b = false → ascending b c = false → ascending a c = false.
Proof. unfold ascending. rewrite !Nat.ltb_ge. lia. Qed.

Lemma descending_asym a b : descending a b = true → descending b a = false.
Proof. unfold descending. rewrite Nat.ltb_lt, Nat.ltb_ge. lia. Qed.

Lemma descending_negtrans a b c :
  descending a b = false → descending b c = false → descending a c = false.
Proof. unfold descending. rewrite !Nat.ltb_ge. lia. Qed.

(** ** The result of the Rewriter in terms of [pending] and [applied] *)

Lemma replace_changes (tex_text : str) (glossary : list (str * str)) :
  (replace_terms_with_gls tex_text glossary).2
  = sort_by ascending snd (map record (applied tex_text glossary)).
Proof.
  unfold replace_terms_with_gls, applied, pending. simpl.
  by rewrite changes_foldl.
Qed.

Lemma applied_pending (tex_text : str) (glossary : list (str * str)) r :
  r ∈ applied tex_text glossary → r ∈ pending tex_text glossary.
Proof. intros H. eapply elem_of_sublist; [done|apply applied_from_sublist]. Qed.

Lemma pending_collect (tex_text : str) (glossary : list (str * str)) r :
  r ∈ pending tex_text glossary ↔ r ∈ collect tex_text glossary.
Proof. unfold pending. by rewrite sort_by_perm. Qed.

(** C3: the spans of the replacements the Rewriter applies are pairwise
    disjoint: two replacements applied at different turns of the loop of
    step 4 never cover a common position of the original text. *)
Theorem applied_spans_disjoint (tex_text : str) (glossary : list (str * str)) :
  ∀ i j ri rj p,
    i ≠ j →
    applied tex_text glossary !! i = Some ri →
    applied tex_text glossary !! j = Some rj →
    ¬ (covers ri p ∧ covers rj p).
Proof.
  intros i j ri rj p Hij Hi Hj [Hpi Hpj].
  destruct (decide (i < j)) as [Hlt|Hge].
  - eapply (applied_from_disjoint _ _ i j); [done..|]. by exists p.
  - eapply (applied_from_disjoint _ _ j i); [lia|done..|]. by exists p.
Qed.

(** C8: the change list returned by the Rewriter holds the records of the
    applied replacements, in ascending order of start offset. *)
Theorem changes_sorted (tex_text : str) (glossary : list (str * str)) :
  (replace_terms_with_gls tex_text glossary).2
    ≡ₚ map record (applied tex_text glossary)
  ∧ ∀ i j a b,
      i < j →
      (replace_terms_with_gls tex_text glossary).2 !! i = Some a →
      (replace_terms_with_gls tex_text glossary).2 !! j = Some b →
      a.2 ≤ b.2.
Proof.
  rewrite replace_changes. split.
  - apply sort_by_perm.
  - intros i j a b Hij Hi Hj.
    pose proof (sort_by_lookup ascending snd ascending_asym ascending_negtrans
                  _ i j a b Hij Hi Hj) as H.
    unfold ascending in H. by apply Nat.ltb_ge in H.
Qed.

Lemma applied_spans_disjoint_witness :
  applied chain_text chain_glossary
  = [Replacement 4 7 (gls_ref (chars "k3")) (chars "c d");
     Replacement 0 3 (gls_ref (chars "k1")) (chars "a b")]
  ∧ ¬ (covers (Replacement 4 7 (gls_ref (chars "k3")) (chars "c d")) 2
       ∧ covers (Replacement 0 3 (gls_ref (chars "k1")) (chars "a b")) 2).
Proof.
  split; [vm_compute; reflexivity|].
  apply (applied_spans_disjoint chain_text chain_glossary 0 1).
  - lia.
  - vm_compute. reflexivity.
  - vm_compute. reflexivity.
Defined.

Lemma changes_sorted_witness :
  (replace_terms_with_gls chain_text chain_glossary).2
  = [(chars "a b", 0); (chars "c d", 4)]
  ∧ (chars "a b", 0).2 ≤ (chars "c d", 4).2.
Proof.
  split; [vm_compute; reflexivity|].
  apply (proj2 (changes_sorted chain_text chain_glossary) 0 1
           (chars "a b", 0) (chars "c d", 4)).
  - lia.
  - vm_compute. reflexivity.
  - vm_compute. reflexivity.
Defined.

(** ** The scenario and the two corner cases of the extractor *)

(** C2: on the scenario of the specification the code finds no candidate
    at all: [\bC\+\+\b] needs a word character right after the last
    plus sign.  The text comes back unchanged with an empty change list,
    where the claim expects one replacement. *)
Theorem scenario_no_replacement :
  finditer (term_pattern (chars "C++")) scenario_text = []
  ∧ replace_terms_with_gls scenario_text scenario_glossary = (scenario_text, []).
Proof. split; vm_compute; reflexivity. Qed.

(** C9: for a key written [{ cpp }] the extractor's mapping holds the
    trimmed key [cpp], step 1 records the definition span under the
    untrimmed key, the lookup of [cpp] finds nothing, and the display
    name is replaced inside the entry's own definition. *)
Theorem padded_key_not_protected :
  extract_glossary_terms padded_key_text = [(chars "cpp", chars "cat")]
  ∧ glossary_defs padded_key_text !! chars " cpp " = Some (0, 36)
  ∧ glossary_defs padded_key_text !! chars "cpp" = None
  ∧ replace_terms_with_gls padded_key_text (extract_glossary_terms padded_key_text)
    = (chars "\newglossaryentry{ cpp }{name={\gls{cpp}}}", [(chars "cat", 31)]).
Proof. repeat split; vm_compute; reflexivity. Qed.

(** C10: an entry with an empty [name=] field stays in the mapping with
    the empty display name; the Rewriter then matches it at every word
    boundary that lies outside the entry's definition span (there is no
    reference span here), splices [\gls{k}] in at each and records one
    change per insertion. *)
Theorem empty_name_matches_boundaries :
  extract_glossary_terms empty_name_text = [(chars "k", [])]
  ∧ glossary_defs empty_name_text !! chars "k" = Some (6, 35)
  ∧ gls_spans empty_name_text = []
  ∧ filter (λ i, ¬ 6 ≤ i < 35) (boundary_offsets empty_name_text) = [0; 2; 3; 5]
  ∧ replace_terms_with_gls empty_name_text (extract_glossary_terms empty_name_text)
    = (chars "\gls{k}ab\gls{k} \gls{k}cd\gls{k} \newglossaryentry{k}{name={}}",
       [([], 0); ([], 2); ([], 3); ([], 5)]).
Proof. repeat split; vm_compute; reflexivity. Qed.

(** ** Pending replacements and the turns of the loop *)

Lemma gls_ref_inj (k1 k2 : str) : gls_ref k1 = gls_ref k2 → k1 = k2.
Proof.
  unfold gls_ref. intros H. apply app_inv_head in H. by apply app_inv_tail in H.
Qed.

Lemma elem_of_collect (tex_text : str) (glossary : list (str * str)) r :
  r ∈ collect tex_text glossary
  ↔ ∃ term name m,
      (term, name) ∈ glossary
      ∧ m ∈ finditer (term_pattern name) tex_text
      ∧ candidate tex_text term name m = Some r.
Proof.
  unfold collect. rewrite list_elem_of_In, in_flat_map. split.
  - intros ([term name] & Hin & Hr). apply list_elem_of_In in Hin, Hr.
    apply list_elem_of_omap in Hr as (m & Hm & Hc).
    by exists term, name, m.
  - intros (term & name & m & Hin & Hm & Hc).
    exists (term, name). split; [by apply list_elem_of_In|].
    apply list_elem_of_In, list_elem_of_omap. by exists m.
Qed.

(** What a match must satisfy to become a pending replacement. *)
Lemma candidate_Some (tex_text term name : str) (m : rmatch) r :
  candidate tex_text term name m = Some r
  ↔ r = Replacement (m_start m) (m_end m) (gls_ref term) name
    ∧ inside_any (m_start m) (gls_spans tex_text) = false
    ∧ ∀ span, glossary_defs tex_text !! term = Some span →
              ¬ span.1 ≤ m_start m < span.2.
Proof.
  unfold candidate.
  destruct (inside_any _ _); [split; [done|by intros (_ & ? & _)]|].
  destruct (glossary_defs tex_text !! term) as [span|];
    [|split; [by intros [= <-]|by intros (-> & _)]].
  destruct (Nat.leb_spec span.1 (m_start m)) as [H1|H1];
    destruct (Nat.ltb_spec (m_start m) span.2) as [H2|H2]; simpl.
  - split; [done|]. intros (_ & _ & H). destruct (H span eq_refl). lia.
  - split; [intros [= <-]|intros (-> & _)]; [|done].
    repeat split. intros ? [= <-]. lia.
  - split; [intros [= <-]|intros (-> & _)]; [|done].
    repeat split. intros ? [= <-]. lia.
  - split; [intros [= <-]|intros (-> & _)]; [|done].
    repeat split. intros ? [= <-]. lia.
Qed.

Lemma occupied_apply_one (st : progress) r :
  occupied (apply_one st r)
  = if claimed (occupied st) r then occupied st else claim (occupied st) r.
Proof. unfold apply_one. by destruct (claimed _ _). Qed.

Lemma applied_from_app (st : progress) (l1 l2 : list replacement) :
  applied_from (occupied st) (l1 ++ l2)
  = applied_from (occupied st) l1
    ++ applied_from (occupied (foldl apply_one st l1)) l2.
Proof.
  revert st. induction l1 as [|r l1 IH]; intros st; [done|].
  cbn [foldl app applied_from].
  specialize (IH (apply_one st r)). rewrite occupied_apply_one in IH.
  destruct (claimed (occupied st) r); [done|]. cbn [app]. by f_equal.
Qed.

(** The test of the loop at the turn of [r], after the replacements [l1]:
    [r] is applied exactly when no replacement applied before overlaps it. *)
Lemma applied_at_turn_iff (tex_text : str) (l1 : list replacement) r :
  applied_at_turn tex_text l1 r = true
  ↔ ∀ r', r' ∈ applied_from ∅ l1 → ¬ overlap r' r.
Proof.
  unfold applied_at_turn, state_after. rewrite negb_true_iff, claimed_false.
  split.
  - intros H r' Hr' (p & Hp' & Hp). apply (H p Hp).
    apply occupied_foldl. right. by exists r'.
  - intros H p Hp [Hocc|(r' & Hr' & Hp')]%occupied_foldl.
    + by apply not_elem_of_empty in Hocc.
    + apply (H r' Hr'). by exists p.
Qed.

Lemma applied_split (tex_text : str) (l1 l2 : list replacement) r :
  applied_from ∅ (l1 ++ r :: l2)
  = applied_from ∅ l1
    ++ (if applied_at_turn tex_text l1 r then [r] else [])
    ++ applied_from (occupied (state_after tex_text (l1 ++ [r]))) l2.
Proof.
  pose proof (applied_from_app (Progress tex_text ∅ []) (l1 ++ [r]) l2) as H1.
  pose proof (applied_from_app (Progress tex_text ∅ []) l1 [r]) as H2.
  cbn [occupied] in H1, H2. rewrite <- app_assoc in H1. cbn [app] in H1.
  rewrite H1, H2, <- app_assoc. do 2 f_equal.
  cbn [applied_from]. unfold applied_at_turn, state_after.
  by destruct (claimed _ r).
Qed.

(** A pending replacement is applied, or an applied one overlaps it. *)
Lemma processed_applied_or_blocked (occ : gset nat) (l : list replacement) r :
  r ∈ l →
  r ∈ applied_from occ l
  ∨ (∃ p, covers r p ∧ p ∈ occ)
  ∨ ∃ r', r' ∈ applied_from occ l ∧ overlap r' r.
Proof.
  revert occ. induction l as [|r0 l IH]; intros occ; [by intros ?%elem_of_nil|].
  simpl. intros [->|Hin]%elem_of_cons.
  - destruct (claimed occ r0) eqn:Hc.
    + right; left. by apply claimed_true.
    + left. apply list_elem_of_here.
  - destruct (claimed occ r0) eqn:Hc; [by apply IH|].
    destruct (IH (claim occ r0) Hin) as [H|[(p & Hp & Hocc)|(r' & Hr' & Ho)]].
    + left. by apply list_elem_of_further.
    + apply elem_of_claim in Hocc as [Hocc|Hcov].
      * right; left. by exists p.
      * right; right. exists r0. split; [apply list_elem_of_here|by exists p].
    + right; right. exists r'. split; [by apply list_elem_of_further|done].
Qed.

(** ** Overlap resolution *)

(** C6, as stated, fails: in [a b c d] the matches of [b c] and [a b]
    overlap and [b c] is processed first, but [b c] is skipped (it
    overlaps [c d], applied before) and [a b] is then applied. *)
Lemma first_processed_may_lose : ¬ first_processed_wins chain_text chain_glossary.
Proof.
  intros H.
  destruct (H [Replacement 4 7 (gls_ref (chars "k3")) (chars "c d")]
              (Replacement 2 5 (gls_ref (chars "k2")) (chars "b c")) []
              (Replacement 0 3 (gls_ref (chars "k1")) (chars "a b")) [])
    as [H1 _].
  - vm_compute. reflexivity.
  - exists 2. unfold covers. simpl. lia.
  - vm_compute in H1. discriminate.
Qed.

(** C6 (amended): the Rewriter is a function of its two arguments.  Its
    processing order is the collected candidates sorted by descending
    start, candidates with equal start staying in enumeration order.  At
    its turn a replacement is applied exactly when no replacement applied
    before it overlaps it: the first one processed is always applied, and
    of two overlapping ones the later is skipped whenever the earlier was
    applied. *)
Theorem overlap_resolution (tex_text : str) (glossary : list (str * str)) :
  (∀ tex_text' glossary',
      tex_text' = tex_text → glossary' = glossary →
      replace_terms_with_gls tex_text' glossary'
      = replace_terms_with_gls tex_text glossary)
  ∧ pending tex_text glossary ≡ₚ collect tex_text glossary
  ∧ (∀ i j ri rj,
        i < j →
        pending tex_text glossary !! i = Some ri →
        pending tex_text glossary !! j = Some rj →
        r_start rj ≤ r_start ri)
  ∧ (∀ n, filter (λ r, r_start r = n) (pending tex_text glossary)
          = filter (λ r, r_start r = n) (collect tex_text glossary))
  ∧ (∀ l1 r l2,
        pending tex_text glossary = l1 ++ r :: l2 →
        (applied_at_turn tex_text l1 r = true
         ↔ ∀ r', r' ∈ applied_from ∅ l1 → ¬ overlap r' r)
        ∧ (l1 = [] → applied_at_turn tex_text l1 r = true))
  ∧ (∀ l1 r1 l2 r2 l3,
        pending tex_text glossary = l1 ++ r1 :: l2 ++ r2 :: l3 →
        overlap r1 r2 →
        applied_at_turn tex_text l1 r1 = true →
        applied_at_turn tex_text (l1 ++ r1 :: l2) r2 = false).
Proof.
  split; [by intros ?? -> ->|].
  split; [apply sort_by_perm|].
  split.
  { intros i j ri rj Hij Hi Hj.
    pose proof (sort_by_lookup descending r_start descending_asym
                  descending_negtrans _ i j ri rj Hij Hi Hj) as H.
    unfold descending in H. by apply Nat.ltb_ge in H. }
  split; [intros n; apply (sort_by_stable descending r_start descending_asym)|].
  split.
  { intros l1 r l2 _. split; [apply applied_at_turn_iff|].
    intros ->. apply applied_at_turn_iff. by intros r' ?%elem_of_nil. }
  intros l1 r1 l2 r2 l3 _ Hov H1.
  apply not_true_iff_false. rewrite applied_at_turn_iff. intros H2.
  apply (H2 r1); [|done].
  rewrite (applied_split tex_text l1 l2 r1), H1.
  apply elem_of_app. right. apply list_elem_of_here.
Qed.

Lemma overlap_resolution_witness :
  replace_terms_with_gls chain_text chain_glossary
  = replace_terms_with_gls chain_text chain_glossary
  ∧ r_start (Replacement 2 5 (gls_ref (chars "k2")) (chars "b c"))
    ≤ r_start (Replacement 4 7 (gls_ref (chars "k3")) (chars "c d"))
  ∧ applied_at_turn chain_text [] (Replacement 4 7 (gls_ref (chars "k3")) (chars "c d"))
    = true
  ∧ applied_at_turn chain_text [Replacement 4 7 (gls_ref (chars "k3")) (chars "c d")]
      (Replacement 2 5 (gls_ref (chars "k2")) (chars "b c")) = false.
Proof.
  destruct (overlap_resolution chain_text chain_glossary)
    as (Hdet & _ & Hord & _ & Hturn & Hskip).
  split; [by apply Hdet|].
  split; [apply (Hord 0 1); [lia|vm_compute; reflexivity..]|].
  split.
  - apply (Hturn [] _ [Replacement 2 5 (gls_ref (chars "k2")) (chars "b c");
                       Replacement 0 3 (gls_ref (chars "k1")) (chars "a b")]);
      [vm_compute; reflexivity|reflexivity].
  - apply (Hskip [] _ [] _ [Replacement 0 3 (gls_ref (chars "k1")) (chars "a b")]).
    + vm_compute. reflexivity.
    + exists 4. unfold covers. simpl. lia.
    + vm_compute. reflexivity.
Defined.

(** ** Self-exclusion *)

(** C4, as stated, fails in its second half: the match of [a b] in the
    description of entry [d] lies in another entry's definition span,
    outside every reference span and outside the span of its own entry
    [k], yet it is not replaced, because the match of [b] inside it was
    applied before. *)
Lemma other_definition_not_always_replaced :
  (chars "k", chars "a b") ∈ extract_glossary_terms nested_names_text
  ∧ Match 44 47 [] ∈ finditer (term_pattern (chars "a b")) nested_names_text
  ∧ ¬ self_excluded_else_replaced nested_names_text
        (extract_glossary_terms nested_names_text)
        (chars "k") (chars "a b") (Match 44 47 []).
Proof.
  split; [vm_compute; apply list_elem_of_further, list_elem_of_here|].
  split; [vm_compute; apply list_elem_of_here|].
  intros H. destruct (H (49, 81)) as [_ H2]; [vm_compute; reflexivity|].
  specialize (H2 (chars "d") (0, 49)).
  assert (Hin : Replacement 44 47 (gls_ref (chars "k")) (chars "a b")
                ∈ applied nested_names_text (extract_glossary_terms nested_names_text)).
  { apply H2; [discriminate|vm_compute; reflexivity|simpl; lia
               |vm_compute; reflexivity|simpl; lia]. }
  vm_compute in Hin.
  apply elem_of_cons in Hin as [Hin|Hin]; [discriminate|].
  apply elem_of_cons in Hin as [Hin|Hin]; [discriminate|].
  by apply elem_of_nil in Hin.
Qed.

(** C4 (amended): for an entry [(term, name)] of the mapping and a match
    [m] of [name], (1) if [m] starts inside the definition span recorded
    for [term], no applied replacement puts a reference to [term] at the
    start of [m]; (2) if [m] starts outside every reference span and
    outside the span recorded for [term] (be it inside another entry's
    span or not), the replacement of [m] by a reference to [term] is
    pending, and it is applied unless a replacement that was applied
    overlaps it. *)
Theorem self_exclusion (tex_text : str) (glossary : list (str * str))
    (term name : str) (m : rmatch) :
  (term, name) ∈ glossary →
  m ∈ finditer (term_pattern name) tex_text →
  (∀ own, glossary_defs tex_text !! term = Some own →
     own.1 ≤ m_start m < own.2 →
     ∀ r, r ∈ applied tex_text glossary → r_text r = gls_ref term →
          r_start r ≠ m_start m)
  ∧ (inside_any (m_start m) (gls_spans tex_text) = false →
     (∀ own, glossary_defs tex_text !! term = Some own →
             ¬ own.1 ≤ m_start m < own.2) →
     let r := Replacement (m_start m) (m_end m) (gls_ref term) name in
     r ∈ pending tex_text glossary
     ∧ (r ∈ applied tex_text glossary
        ∨ ∃ r', r' ∈ applied tex_text glossary ∧ overlap r' r)).
Proof.
  intros Hin Hm. split.
  - intros own Hown Hinside r Hr Htext Hstart.
    apply applied_pending, pending_collect, elem_of_collect in Hr
      as (term' & name' & m' & _ & _ & Hc).
    apply candidate_Some in Hc as (-> & _ & Hout). simpl in *.
    apply gls_ref_inj in Htext as ->.
    apply (Hout own Hown). lia.
  - intros Hgls Hout r.
    assert (Hp : r ∈ pending tex_text glossary).
    { apply pending_collect, elem_of_collect. exists term, name, m.
      repeat split; [done..|]. by apply candidate_Some. }
    split; [done|].
    destruct (processed_applied_or_blocked ∅ _ _ Hp)
      as [H|[(p & _ & H)|H]]; [by left| |by right].
    by apply not_elem_of_empty in H.
Qed.

Lemma self_exclusion_witness :
  Replacement 46 47 (gls_ref (chars "k2")) (chars "b")
    ∈ pending nested_names_text (extract_glossary_terms nested_names_text)
  ∧ ∀ r, r ∈ applied nested_names_text (extract_glossary_terms nested_names_text) →
         r_text r = gls_ref (chars "k") → r_start r ≠ 76.
Proof.
  split.
  - refine (proj1 (proj2 (self_exclusion nested_names_text
             (extract_glossary_terms nested_names_text) (chars "k2") (chars "b")
             (Match 46 47 []) _ _) _ _)).
    + vm_compute. do 2 apply list_elem_of_further. apply list_elem_of_here.
    + vm_compute. apply list_elem_of_here.
    + vm_compute. reflexivity.
    + intros own Hown. vm_compute in Hown. injection Hown as <-. simpl. lia.
  - refine (proj1 (self_exclusion nested_names_text
             (extract_glossary_terms nested_names_text) (chars "k") (chars "a b")
             (Match 76 79 []) _ _) (49, 81) _ _).
    + vm_compute. apply list_elem_of_further, list_elem_of_here.
    + vm_compute. apply list_elem_of_further, list_elem_of_here.
    + vm_compute. reflexivity.
    + simpl. lia.
Defined.

(** ** The Term Extractor *)

Lemma lstrip_spec (s : str) :
  ∃ ws, s = ws ++ lstrip s ∧ Forall (λ c, isspace c = true) ws
        ∧ ∀ c, head (lstrip s) = Some c → isspace c = false.
Proof.
  induction s as [|x s (ws & Hs & Hws & Hhd)]; simpl.
  - exists []. repeat split; [constructor|done].
  - destruct (isspace x) eqn:Hx.
    + exists (x :: ws). repeat split; [by rewrite Hs at 1|by constructor|done].
    + exists []. repeat split; [constructor|]. simpl. by intros c [= <-].
Qed.

Lemma rstrip_spec (s : str) :
  ∃ ws, s = rstrip s ++ ws ∧ Forall (λ c, isspace c = true) ws
        ∧ ∀ c, last (rstrip s) = Some c → isspace c = false.
Proof.
  unfold rstrip. destruct (lstrip_spec (reverse s)) as (ws & Hs & Hws & Hhd).
  exists (reverse ws). repeat split.
  - rewrite <- reverse_app, <- Hs. by rewrite reverse_involutive.
  - by apply Forall_reverse.
  - intros c. rewrite last_reverse. apply Hhd.
Qed.

(** [strip] removes whitespace only, and all of it at both ends. *)
Lemma strip_spec (s : str) :
  (∃ ws1 ws2, s = ws1 ++ strip s ++ ws2
              ∧ Forall (λ c, isspace c = true) ws1
              ∧ Forall (λ c, isspace c = true) ws2)
  ∧ trimmed (strip s).
Proof.
  unfold strip.
  destruct (lstrip_spec s) as (ws1 & Hs1 & Hws1 & Hhd).
  destruct (rstrip_spec (lstrip s)) as (ws2 & Hs2 & Hws2 & Hlast).
  split.
  - exists ws1, ws2. repeat split; [|done..]. by rewrite <- Hs2.
  - split; [|done]. intros c Hc. apply Hhd. rewrite Hs2.
    destruct (rstrip (lstrip s)); [done|]. exact Hc.
Qed.

Section DictFacts.
Context {K V : Type} `{EqDecision K}.
Implicit Types (d l : list (K * V)) (k : K) (v : V).

Lemma dict_get_set k k' v d :
  Dict.get k (Dict.set k' v d) = if decide (k' = k) then Some v else Dict.get k d.
Proof.
  induction d as [|[k0 v0] d IH]; simpl.
  - by destruct (decide (k' = k)).
  - destruct (decide (k0 = k')) as [->|Hne]; simpl.
    + by destruct (decide (k' = k)).
    + rewrite IH. destruct (decide (k0 = k)) as [->|]; [|done].
      by rewrite decide_False.
Qed.

Lemma elem_of_dict_set k v k' v' d :
  (k, v) ∈ Dict.set k' v' d → (k, v) = (k', v') ∨ (k, v) ∈ d.
Proof.
  induction d as [|[k0 v0] d IH]; simpl.
  - intros ?%list_elem_of_singleton. by left.
  - destruct (decide (k0 = k')) as [->|Hne].
    + intros [?|?]%elem_of_cons; [by left|]. right. by apply list_elem_of_further.
    + intros [?|Hin]%elem_of_cons; [right; rewrite H; apply list_elem_of_here|].
      destruct (IH Hin); [by left|]. right. by apply list_elem_of_further.
Qed.

Lemma dict_set_keys k v d :
  (Dict.set k v d).*1 = if decide (k ∈ d.*1) then d.*1 else d.*1 ++ [k].
Proof.
  induction d as [|[k0 v0] d IH]; cbn [Dict.set fmap list_fmap fst].
  - destruct (decide (k ∈ [])) as [H|_]; [by apply elem_of_nil in H|done].
  - destruct (decide (k0 = k)) as [->|Hne]; cbn [fmap list_fmap fst].
    + destruct (decide (k ∈ k :: d.*1)) as [_|H]; [done|].
      destruct H. apply list_elem_of_here.
    + rewrite IH.
      destruct (decide (k ∈ d.*1)) as [Hin|Hout];
        destruct (decide (k ∈ k0 :: d.*1)) as [Hin'|Hout']; try done.
      * destruct Hout'. by apply list_elem_of_further.
      * apply elem_of_cons in Hin' as [->|?]; done.
Qed.

Lemma dict_set_NoDup k v d : NoDup d.*1 → NoDup (Dict.set k v d).*1.
Proof.
  intros Hd. rewrite dict_set_keys. destruct (decide (k ∈ d.*1)); [done|].
  apply NoDup_app. repeat split; [done| |apply NoDup_singleton].
  intros x Hx ->%list_elem_of_singleton. done.
Qed.

Lemma dict_fold_get k d l :
  Dict.get k (foldl (λ d kv, Dict.set kv.1 kv.2 d) d l)
  = match last (filter (λ kv, kv.1 = k) l) with
    | Some kv => Some kv.2
    | None => Dict.get k d
    end.
Proof.
  revert d. induction l as [|[k0 v0] l IH]; intros d; simpl; [done|].
  rewrite IH, filter_cons. simpl.
  destruct (decide (k0 = k)) as [->|Hne].
  - rewrite dict_get_set, decide_True by done.
    destruct (filter _ l) as [|kv l']; [done|].
    change (last ((k, v0) :: kv :: l')) with (last (kv :: l')).
    destruct (last (kv :: l')) as [kv'|] eqn:Hl; [done|].
    by apply last_None in Hl.
  - rewrite dict_get_set, decide_False by done. done.
Qed.

Lemma dict_fold_elem_of k v d l :
  (k, v) ∈ foldl (λ d kv, Dict.set kv.1 kv.2 d) d l → (k, v) ∈ d ∨ (k, v) ∈ l.
Proof.
  revert d. induction l as [|[k0 v0] l IH]; intros d; simpl; [by left|].
  intros [Hin|Hin]%IH.
  - apply elem_of_dict_set in Hin as [->|?]; [|by left].
    right. apply list_elem_of_here.
  - right. by apply list_elem_of_further.
Qed.

Lemma dict_fold_NoDup d l :
  NoDup d.*1 → NoDup (foldl (λ d kv, Dict.set kv.1 kv.2 d) d l).*1.
Proof.
  revert d. induction l as [|[k0 v0] l IH]; intros d Hd; simpl; [done|].
  by apply IH, dict_set_NoDup.
Qed.
End DictFacts.

(** C7: every key and display name of the extractor's mapping is free of
    leading and trailing whitespace; the keys are distinct and each key
    maps to the display name of the last recognized definition with that
    trimmed key; when no definition is recognized the mapping is empty. *)
Theorem extract_trimmed_last_wins (tex_text : str) :
  let entries :=
    map (λ e, (strip e.1, strip e.2)) (findall2 entry_pattern tex_text) in
  let mapping := extract_glossary_terms tex_text in
  Forall (λ kv, trimmed kv.1 ∧ trimmed kv.2) mapping
  ∧ NoDup mapping.*1
  ∧ (∀ key, Dict.get key mapping
            = snd <$> last (filter (λ e, e.1 = key) entries))
  ∧ (findall2 entry_pattern tex_text = [] → mapping = []).
Proof.
  intros entries mapping. unfold mapping, extract_glossary_terms, Dict.of_list.
  fold entries. repeat split.
  - apply Forall_forall. intros [k v] [Hin|Hin]%dict_fold_elem_of.
    + by apply elem_of_nil in Hin.
    + unfold entries in Hin. apply list_elem_of_fmap in Hin as ([k0 v0] & [= -> ->] & _).
      split; apply strip_spec.
  - apply dict_fold_NoDup. constructor.
  - intros key. rewrite dict_fold_get. by destruct (last _).
  - unfold entries. by intros ->.
Qed.

Lemma extract_trimmed_last_wins_witness :
  extract_glossary_terms chain_text = []
  ∧ Dict.get (chars "a") (extract_glossary_terms duplicate_key_text)
    = Some (chars "y").
Proof.
  split.
  - apply (extract_trimmed_last_wins chain_text). vm_compute. reflexivity.
  - rewrite (proj1 (proj2 (proj2 (extract_trimmed_last_wins duplicate_key_text)))).
    vm_compute. reflexivity.
Defined.

(** ** The matcher only moves forward, and the scanner's fuel suffices *)

Lemma extends_refl c : extends c c.
Proof. unfold extends. lia. Qed.

Lemma extends_trans c1 c2 c3 : extends c1 c2 → extends c2 c3 → extends c1 c3.
Proof. unfold extends. lia. Qed.

Lemma extends_advance x rest c : ahead c = x :: rest → extends c (advance x rest c).
Proof. unfold extends, advance. intros ->. simpl. lia. Qed.

Section StarFacts.
Context {R : Type} (p : ascii → bool) (k : cursor → option R).

Lemma star_lazy_extends rest c res :
  ahead c = rest →
  star_lazy p k rest c = Some res → ∃ c', k c' = Some res ∧ extends c c'.
Proof.
  revert c. induction rest as [|x rest IH]; intros c Hc; simpl.
  - destruct (k c) eqn:Hk; [|done]. intros [= <-]. eauto using extends_refl.
  - destruct (k c) eqn:Hk; [intros [= <-]; eauto using extends_refl|].
    destruct (p x); [|done]. intros (c' & Hk' & He)%IH; [|done].
    exists c'. split; [done|]. eapply extends_trans; [|done].
    by apply extends_advance.
Qed.

Lemma star_greedy_extends rest c res :
  ahead c = rest →
  star_greedy p k rest c = Some res → ∃ c', k c' = Some res ∧ extends c c'.
Proof.
  revert c. induction rest as [|x rest IH]; intros c Hc; simpl.
  - eauto using extends_refl.
  - destruct (p x); [|eauto using extends_refl].
    destruct (star_greedy p k rest (advance x rest c)) eqn:Hs;
      [|eauto using extends_refl].
    intros [= <-]. apply IH in Hs as (c' & Hk' & He); [|done].
    exists c'. split; [done|]. eapply extends_trans; [|done].
    by apply extends_advance.
Qed.
End StarFacts.

(** A successful run has called its continuation at a cursor further on. *)
Lemma run_extends r c k res :
  run r c k = Some res → ∃ c', k c' = Some res ∧ extends c c'.
Proof.
  revert c k. induction r as [|p|r1 IH1 r2 IH2|r1 IH1 r2 IH2|g p|n r1 IH1|r1 IH1| |];
    intros c k; simpl.
  - eauto using extends_refl.
  - destruct (ahead c) as [|x rest] eqn:Hc; [done|]. destruct (p x); [|done].
    intros Hk. exists (advance x rest c). split; [done|]. by apply extends_advance.
  - intros (c1 & (c2 & Hk & He2)%IH2 & He1)%IH1.
    exists c2. split; [done|]. by eapply extends_trans.
  - destruct (run r1 c k) eqn:H1.
    + intros [= <-]. by apply IH1.
    + apply IH2.
  - destruct g; [by apply star_greedy_extends|by apply star_lazy_extends].
  - intros (c1 & Hk & He)%IH1. exists (close_group n (offset c) c1).
    split; [done|]. exact He.
  - destruct (run r1 c Some); [|done]. eauto using extends_refl.
  - destruct (at_boundary c); [|done]. eauto using extends_refl.
  - destruct (at_dollar c); [|done]. eauto using extends_refl.
Qed.

Lemma match_at_bounds r adv c m :
  match_at r adv c = Some m →
  m_start m = offset c
  ∧ offset c ≤ m_end m ≤ offset c + length (ahead c)
  ∧ (adv = true → m_end m ≠ offset c).
Proof.
  unfold match_at. destruct (run r c _) as [c'|] eqn:Hrun; [|done].
  intros [= <-]. simpl.
  apply run_extends in Hrun as (c1 & Hk & [He1 He2]).
  destruct (adv && (offset c1 =? offset c)) eqn:Hadv; [done|].
  injection Hk as <-. repeat split; [lia..|].
  intros ->. simpl in Hadv. by apply Nat.eqb_neq in Hadv.
Qed.

Lemma search_bounds r adv bef rest pos m :
  search r adv bef rest pos = Some m →
  pos ≤ m_start m ≤ m_end m ∧ m_end m ≤ pos + length rest
  ∧ (adv = true → m_end m ≠ pos).
Proof.
  revert adv bef pos. induction rest as [|x rest IH]; intros adv bef pos; simpl.
  - destruct (match_at r adv _) as [m'|] eqn:Hm; [|done]. intros [= ->].
    apply match_at_bounds in Hm as (? & ? & ?). simpl in *.
    repeat split; [lia..|]. auto.
  - destruct (match_at r adv _) as [m'|] eqn:Hm.
    + intros [= ->]. apply match_at_bounds in Hm as (? & ? & ?). simpl in *.
      repeat split; [lia..|]. auto.
    + intros (? & ? & _)%IH. repeat split; [lia..|]. intros _. lia.
Qed.

Lemma scan_step_measure r text start adv m :
  start ≤ length text →
  search r adv (char_before text start) (drop start text) start = Some m →
  m_end m ≤ length text
  ∧ scan_measure text (m_end m) (m_end m =? m_start m)
    < scan_measure text start adv.
Proof.
  intros Hstart Hm%search_bounds. rewrite length_drop in Hm.
  split; [lia|]. unfold scan_measure.
  destruct (Nat.eqb_spec (m_end m) (m_start m)) as [Heq|Hne].
  - destruct adv; [|lia]. destruct Hm as (? & ? & Hadv). specialize (Hadv eq_refl). lia.
  - destruct adv; lia.
Qed.

(** With fuel above the measure the scanner never stops for lack of fuel:
    more fuel returns the same matches. *)
Lemma scan_fuel_irrelevant r text fuel1 fuel2 start adv :
  start ≤ length text →
  scan_measure text start adv < fuel1 →
  scan_measure text start adv < fuel2 →
  scan fuel1 r text start adv = scan fuel2 r text start adv.
Proof.
  revert fuel2 start adv. induction fuel1 as [|fuel1 IH]; intros fuel2 start adv.
  - lia.
  - destruct fuel2 as [|fuel2]; [lia|]. intros Hstart H1 H2. simpl.
    destruct (search r adv _ _ start) as [m|] eqn:Hm; [|done].
    apply scan_step_measure in Hm as [Hend Hlt]; [|done].
    f_equal. apply IH; lia.
Qed.

Lemma finditer_fuel r text fuel :
  2 * length text + 2 ≤ fuel → scan fuel r text 0 false = finditer r text.
Proof.
  intros Hfuel. apply scan_fuel_irrelevant; unfold scan_measure; lia.
Qed.

(** ** One attempt of the term pattern *)

Lemma skip_0 c : skip 0 c = c.
Proof. destruct c. unfold skip. simpl. by rewrite drop_0, Nat.add_0_r. Qed.

Lemma skip_advance n x rest c :
  ahead c = x :: rest → skip n (advance x rest c) = skip (S n) c.
Proof.
  intros Hc. unfold skip, advance. simpl. rewrite Hc. simpl.
  f_equal. lia.
Qed.

Lemma run_lit_nocase name c k :
  run (lit_nocase name) c k
  = if nocase_prefix name (ahead c) then k (skip (length name) c) else None.
Proof.
  revert c. induction name as [|x name IH]; intros c; simpl.
  - by rewrite skip_0.
  - destruct (ahead c) as [|y rest] eqn:Hc; [done|].
    destruct (is_char_nocase x y); [|done]. simpl.
    rewrite IH. simpl. by rewrite skip_advance.
Qed.

(** The conditions under which [\bname\b] matches at [c]. *)
Lemma run_term_pattern name c k :
  run (term_pattern name) c k
  = if at_boundary c && nocase_prefix name (ahead c)
       && at_boundary (skip (length name) c)
    then k (skip (length name) c) else None.
Proof.
  unfold term_pattern, seqs. simpl.
  destruct (at_boundary c); [|done]. rewrite run_lit_nocase.
  destruct (nocase_prefix name (ahead c)); [|done]. simpl.
  by destruct (at_boundary _).
Qed.

Lemma match_at_term_pattern name adv c :
  match_at (term_pattern name) adv c
  = if at_boundary c && nocase_prefix name (ahead c)
       && at_boundary (skip (length name) c)
       && negb (adv && (length name =? 0))
    then Some (Match (offset c) (offset c + length name) (groups c))
    else None.
Proof.
  unfold match_at. rewrite run_term_pattern.
  destruct (_ && _ && at_boundary _); [|done]. simpl.
  replace (offset c + length name =? offset c) with (length name =? 0);
    [by destruct (adv && _)|].
  destruct (Nat.eqb_spec (length name) 0), (Nat.eqb_spec (offset c + length name) (offset c));
    try done; lia.
Qed.

Lemma nocase_prefix_spec name rest :
  nocase_prefix name rest = true
  ↔ length name ≤ length rest
    ∧ lower <$> take (length name) rest = lower <$> name.
Proof.
  revert rest. induction name as [|x name IH]; intros [|y rest]; simpl.
  - split; [done|done].
  - split; [intros _; split; [lia|done]|done].
  - split; [done|]. intros [? _]. lia.
  - rewrite andb_true_iff, IH. unfold is_char_nocase. rewrite Ascii.eqb_eq.
    split.
    + intros (Hxy & Hlen & Heq). split; [lia|]. rewrite Hxy. f_equal. exact Heq.
    + intros (Hlen & [= Hxy Heq]). repeat split; [done|lia|done].
Qed.

Lemma head_drop_lookup (text : str) n : head (drop n text) = text !! n.
Proof. rewrite head_lookup, lookup_drop. f_equal. lia. Qed.

(** ** What [search] and the scanner return *)

Lemma search_cursor_at r text adv pos :
  pos ≤ length text →
  match search r adv (char_before text pos) (drop pos text) pos with
  | Some m =>
      ∃ p, pos ≤ p ≤ length text
           ∧ match_at r (adv && (p =? pos)) (cursor_at text p) = Some m
           ∧ ∀ q, pos ≤ q < p →
                  match_at r (adv && (q =? pos)) (cursor_at text q) = None
  | None =>
      ∀ q, pos ≤ q ≤ length text →
           match_at r (adv && (q =? pos)) (cursor_at text q) = None
  end.
Proof.
  remember (length text - pos) as n eqn:Hn.
  revert adv pos Hn. induction n as [|n IH]; intros adv pos Hn Hpos.
  - assert (pos = length text) as -> by lia.
    rewrite drop_all. simpl. fold (cursor_at text (length text)).
    replace (Cursor (char_before text (length text)) [] (length text) [])
      with (cursor_at text (length text))
      by (unfold cursor_at; by rewrite drop_all).
    destruct (match_at r adv _) as [m|] eqn:Hm.
    + exists (length text). rewrite Nat.eqb_refl, andb_true_r.
      repeat split; [lia..|done|]. intros q ?. lia.
    + intros q ?. assert (q = length text) as -> by lia.
      by rewrite Nat.eqb_refl, andb_true_r.
  - destruct (text !! pos) as [x|] eqn:Hx;
      [|apply lookup_ge_None in Hx; lia].
    rewrite (drop_S _ _ _ Hx). simpl.
    rewrite <- (drop_S _ _ _ Hx). fold (cursor_at text pos).
    destruct (match_at r adv (cursor_at text pos)) as [m|] eqn:Hm.
    + exists pos. rewrite Nat.eqb_refl, andb_true_r.
      repeat split; [lia..|done|]. intros q ?. lia.
    + specialize (IH false (S pos)). simpl in IH. rewrite Hx in IH.
      destruct (search r false (Some x) (drop (S pos) text) (S pos)) as [m|].
      * destruct IH as (p & Hp & Hmp & Hnone); [lia..|].
        exists p. assert ((p =? pos) = false) as -> by (apply Nat.eqb_neq; lia).
        rewrite andb_false_r. repeat split; [lia..|done|].
        intros q Hq. destruct (Nat.eqb_spec q pos) as [->|Hne].
        -- by rewrite andb_true_r.
        -- rewrite andb_false_r. apply Hnone. lia.
      * intros q Hq. destruct (Nat.eqb_spec q pos) as [->|Hne].
        -- by rewrite andb_true_r.
        -- rewrite andb_false_r. apply IH; lia.
Qed.

(** ** Candidate occurrences *)

(** C1, as stated, fails.  By the scanner's design matches do not
    overlap: in [a a a] the display name [a a] occurs as a whole word at
    offsets 0 and 2, and only the first is a candidate.  For display
    names with a non-word character at an end, [\b] asks for the
    opposite of the whole-word condition: [C++] followed by a blank is
    no candidate, and [+] between two letters is one. *)
Lemma candidates_not_whole_words :
  ¬ candidates_are_whole_words (chars "a a") (chars "a a a")
  ∧ ¬ candidates_are_whole_words (chars "C++") (chars "C++ is fast.")
  ∧ ¬ candidates_are_whole_words (chars "+") (chars "a+b").
Proof.
  split; [|split].
  - intros H. destruct (H 2 5) as [_ H'].
    assert (Hin : (2, 5) ∈ candidate_spans (chars "a a") (chars "a a a")).
    { apply H'. unfold whole_word_occurrence. repeat split; simpl; lia. }
    vm_compute in Hin. apply list_elem_of_singleton in Hin. discriminate.
  - intros H. destruct (H 0 3) as [_ H'].
    assert (Hin : (0, 3) ∈ candidate_spans (chars "C++") (chars "C++ is fast.")).
    { apply H'. unfold whole_word_occurrence. repeat split; simpl; lia. }
    vm_compute in Hin. by apply elem_of_nil in Hin.
  - intros H. destruct (H 1 2) as [H' _].
    assert (Hin : (1, 2) ∈ candidate_spans (chars "+") (chars "a+b")).
    { vm_compute. apply list_elem_of_here. }
    apply H' in Hin as (_ & _ & _ & Hb & _). vm_compute in Hb. discriminate.
Qed.

(** ** Running the Rewriter on its own output *)





(** * Further properties of the code *)

(** ** What the scanner returns, for any pattern *)

(** Every match comes from one attempt at an offset of the text. *)
Lemma scan_matches r text fuel start adv m :
  start ≤ length text →
  m ∈ scan fuel r text start adv →
  ∃ p adv', start ≤ p ≤ length text
            ∧ match_at r adv' (cursor_at text p) = Some m.
Proof.
  revert start adv. induction fuel as [|fuel IH]; intros start adv Hstart; simpl.
  - by intros ?%elem_of_nil.
  - pose proof (search_cursor_at r text adv start Hstart) as Hs.
    pose proof (scan_step_measure r text start adv) as Hstep.
    destruct (search r adv _ _ start) as [m0|]; [|by intros ?%elem_of_nil].
    destruct Hs as (p & Hp & Hm0 & _).
    destruct (Hstep m0 Hstart eq_refl) as [Hend _].
    intros [->|Hin]%elem_of_cons.
    + by exists p, (adv && (p =? start)).
    + destruct (IH _ _ Hend Hin) as (p' & adv' & Hp' & Hm).
      exists p', adv'. split; [|done].
      apply match_at_bounds in Hm0. simpl in Hm0. lia.
Qed.

(** The matches lie in the text, from left to right, without overlap. *)
Lemma scan_ascending r text fuel start adv :
  start ≤ length text →
  (∀ m, m ∈ scan fuel r text start adv →
        start ≤ m_start m ≤ m_end m ∧ m_end m ≤ length text)
  ∧ (∀ i j a b, i < j →
        scan fuel r text start adv !! i = Some a →
        scan fuel r text start adv !! j = Some b →
        m_end a ≤ m_start b).
Proof.
  revert start adv. induction fuel as [|fuel IH]; intros start adv Hstart; simpl.
  - split; [by intros m ?%elem_of_nil|]. intros i j a b _ Hi.
    by rewrite lookup_nil in Hi.
  - pose proof (scan_step_measure r text start adv) as Hstep.
    destruct (search r adv _ _ start) as [m0|] eqn:Hsearch.
    + destruct (Hstep m0 Hstart eq_refl) as [Hend _].
      apply search_bounds in Hsearch as (Hb & _ & _).
      destruct (IH (m_end m0) (m_end m0 =? m_start m0) Hend) as [IH1 IH2].
      split.
      * intros m [->|Hin]%elem_of_cons; [lia|]. apply IH1 in Hin. lia.
      * intros i j a b Hij Hi Hj. destruct j as [|j]; [lia|]. simpl in Hj.
        destruct i as [|i]; simpl in Hi.
        -- injection Hi as <-. apply list_elem_of_lookup_2, IH1 in Hj. lia.
        -- apply (IH2 i j); [lia|done..].
    + split; [by intros m ?%elem_of_nil|]. intros i j a b _ Hi.
      by rewrite lookup_nil in Hi.
Qed.

(** A match of the term pattern, for any display name: it has the length
    of the name, lies in the text, and the text reads the name there up
    to case, with [\b] holding at both ends. *)
Lemma finditer_term_pattern name text m :
  m ∈ finditer (term_pattern name) text →
  m_end m = m_start m + length name
  ∧ m_end m ≤ length text
  ∧ lower <$> slice text (m_start m) (m_end m) = lower <$> name
  ∧ at_boundary (cursor_at text (m_start m)) = true
  ∧ at_boundary (cursor_at text (m_end m)) = true.
Proof.
  intros Hm.
  destruct (proj1 (scan_ascending _ _ _ 0 false (Nat.le_0_l _)) m Hm) as [_ Hend].
  apply scan_matches in Hm as (p & adv & Hp & Hm); [|lia].
  rewrite match_at_term_pattern in Hm.
  destruct (at_boundary (cursor_at text p)) eqn:Hb1; [|done].
  destruct (nocase_prefix name (ahead (cursor_at text p))) eqn:Hpre; [|done].
  destruct (at_boundary (skip (length name) (cursor_at text p))) eqn:Hb2; [|done].
  destruct (negb _); [|done]. injection Hm as <-. simpl in *.
  apply nocase_prefix_spec in Hpre as [Hlen Heq].
  unfold slice. replace (p + length name - p) with (length name) by lia.
  repeat split; [done..|].
  rewrite <- Hb2. unfold at_boundary, skip, cursor_at. simpl.
  rewrite drop_drop. f_equal. f_equal.
  destruct (length name) as [|n]; [by rewrite Nat.add_0_r|].
  rewrite lookup_drop. by replace (p + S n) with (S (p + n)) by lia.
Qed.

(** ** What the Rewriter applies *)

Lemma inside_any_true index spans :
  inside_any index spans = true ↔ ∃ s e, (s, e) ∈ spans ∧ s ≤ index < e.
Proof.
  unfold inside_any. rewrite existsb_exists. split.
  - intros ([s e] & Hin%list_elem_of_In & [H1%Nat.leb_le H2%Nat.ltb_lt]%andb_true_iff).
    by exists s, e.
  - intros (s & e & Hin & H1 & H2). exists (s, e).
    split; [by apply list_elem_of_In|]. simpl.
    apply andb_true_iff. split; [by apply Nat.leb_le|by apply Nat.ltb_lt].
Qed.

(** Where a pending replacement comes from. *)
Lemma pending_origin (tex_text : str) (glossary : list (str * str)) r :
  r ∈ pending tex_text glossary →
  ∃ term name m,
    (term, name) ∈ glossary
    ∧ m ∈ finditer (term_pattern name) tex_text
    ∧ r = Replacement (m_start m) (m_end m) (gls_ref term) name
    ∧ inside_any (m_start m) (gls_spans tex_text) = false.
Proof.
  intros (term & name & m & Hin & Hm & Hc)%pending_collect%elem_of_collect.
  apply candidate_Some in Hc as (-> & Hgls & _). by exists term, name, m.
Qed.

(** X1: existing references are protected: no applied replacement starts
    inside a span that step 2 found for an existing [\gls{...}]. *)
Theorem reference_spans_protected (tex_text : str) (glossary : list (str * str)) :
  ∀ r s e,
    r ∈ applied tex_text glossary →
    (s, e) ∈ gls_spans tex_text →
    ¬ s ≤ r_start r < e.
Proof.
  intros r s e Hr Hspan Hin.
  apply applied_pending, pending_origin in Hr as (term & name & m & _ & _ & -> & Hgls).
  simpl in Hin. apply not_true_iff_false in Hgls. apply Hgls.
  apply inside_any_true. by exists s, e.
Qed.

(** X2: every change record names a display name of the mapping and an
    offset at which the original text reads that name, up to case, inside
    the text. *)
Theorem change_records_sound (tex_text : str) (glossary : list (str * str)) :
  ∀ name start,
    (name, start) ∈ (replace_terms_with_gls tex_text glossary).2 →
    (∃ term, (term, name) ∈ glossary)
    ∧ start + length name ≤ length tex_text
    ∧ lower <$> slice tex_text start (start + length name) = lower <$> name.
Proof.
  intros name start. rewrite replace_changes, (sort_by_perm ascending snd).
  intros (r & [= -> ->] & Hr)%list_elem_of_fmap.
  apply applied_pending, pending_origin in Hr as (term & name & m & Hin & Hm & -> & _).
  simpl in *. apply finditer_term_pattern in Hm as (He & Hlen & Hreads & _).
  rewrite <- He. split; [by exists term|done].
Qed.

(** X3: a run that reports no change returns its input text. *)
Theorem no_change_same_text (tex_text : str) (glossary : list (str * str)) :
  (replace_terms_with_gls tex_text glossary).2 = [] →
  (replace_terms_with_gls tex_text glossary).1 = tex_text.
Proof.
  rewrite replace_changes. intros Hch.
  assert (Happ : applied tex_text glossary = []).
  { pose proof (sort_by_perm ascending snd
                  (map record (applied tex_text glossary))) as Hp.
    rewrite Hch in Hp. apply Permutation_nil_l in Hp.
    by destruct (applied tex_text glossary). }
  unfold replace_terms_with_gls. simpl.
  fold (pending tex_text glossary). unfold applied in Happ.
  assert (Hgen : ∀ st l, applied_from (occupied st) l = [] →
                         updated_text (foldl apply_one st l) = updated_text st).
  { intros st l. revert st. induction l as [|r l IH]; intros st; simpl; [done|].
    unfold apply_one at 2. destruct (claimed (occupied st) r) eqn:Hc; [|done].
    apply IH. }
  by apply (Hgen (Progress tex_text ∅ [])).
Qed.

(** ** The text the Rewriter returns *)

Lemma updated_foldl (st : progress) (l : list replacement) :
  updated_text (foldl apply_one st l)
  = foldl splice (updated_text st) (applied_from (occupied st) l).
Proof.
  revert st. induction l as [|r l IH]; intros st; [done|].
  cbn [foldl applied_from]. rewrite IH, occupied_apply_one.
  unfold apply_one. by destruct (claimed (occupied st) r).
Qed.

(** Cutting an assembled text before its first replacement. *)
Lemma assemble_split text pos q rs :
  pos ≤ q →
  match rs with
  | [] => True
  | r :: _ => q ≤ r_start r ≤ length text
  end →
  take (q - pos) (assemble text pos rs) = slice text pos q
  ∧ drop (q - pos) (assemble text pos rs) = assemble text q rs.
Proof.
  intros Hq. destruct rs as [|r rs]; simpl.
  - intros _. split; [done|]. rewrite drop_drop. f_equal. lia.
  - intros [Hr Hlen]. unfold slice.
    assert (Hl : length (take (r_start r - pos) (drop pos text)) = r_start r - pos)
      by (rewrite length_take, length_drop; lia).
    split.
    + rewrite take_app_le by lia. rewrite take_take. f_equal. lia.
    + rewrite drop_app_le by lia. f_equal.
      rewrite !take_drop_commute, drop_drop.
      replace (pos + (q - pos)) with q by lia.
      replace (pos + (r_start r - pos)) with (r_start r) by lia.
      by replace (q + (r_start r - q)) with (r_start r) by lia.
Qed.

(** In processing order, each applied replacement lies wholly to the left
    of those applied before it, when no pending replacement is empty. *)
Lemma applied_from_chain (occ : gset nat) (l : list replacement) :
  StronglySorted (may_precede descending r_start) l →
  Forall (λ r, r_start r < r_end r) l →
  StronglySorted (λ a b, r_end b ≤ r_start a) (applied_from occ l).
Proof.
  intros Hs. revert occ. induction Hs as [|r l Hs IH Hr]; intros occ Hne; simpl.
  - constructor.
  - apply Forall_cons in Hne as [Hr_ne Hne].
    destruct (claimed occ r) eqn:Hc; [by apply IH|].
    constructor; [by apply IH|].
    apply Forall_forall. intros b Hb.
    assert (Hbl : b ∈ l) by (eapply elem_of_sublist; [done|apply applied_from_sublist]).
    rewrite Forall_forall in Hr. specialize (Hr b Hbl).
    unfold may_precede, descending in Hr. apply Nat.ltb_ge in Hr.
    destruct (decide (r_end b ≤ r_start r)) as [|Hgt]; [done|]. exfalso.
    apply (applied_from_fresh _ _ _ (r_start r) Hb); [unfold covers; lia|].
    apply elem_of_claim. right. unfold covers. lia.
Qed.

Lemma foldl_splice_assemble text (l : list replacement) :
  StronglySorted (λ a b, r_end b ≤ r_start a) l →
  Forall (λ r, r_start r ≤ r_end r ≤ length text) l →
  foldl splice text l = assemble text 0 (reverse l).
Proof.
  induction l as [|a l IH] using rev_ind; intros Hs Hb.
  - simpl. by rewrite drop_0.
  - apply StronglySorted_app in Hs as (Hlast & Hl & _).
    apply Forall_app in Hb as [Hb Ha]. apply Forall_inv in Ha.
    rewrite foldl_snoc, reverse_snoc, (IH Hl Hb). unfold splice. simpl.
    assert (Hhead : match reverse l with
                    | [] => True
                    | r :: _ => r_end a ≤ r_start r ≤ length text
                    end).
    { destruct (reverse l) as [|r rl] eqn:Hrl; [done|].
      assert (Hr : r ∈ l) by (apply elem_of_reverse; rewrite Hrl; apply list_elem_of_here).
      split; [apply Hlast; [done|apply list_elem_of_here]|].
      rewrite Forall_forall in Hb. specialize (Hb r Hr). lia. }
    destruct (assemble_split text 0 (r_start a) (reverse l)) as [Ht _]; [lia|..].
    { destruct (reverse l); [done|lia]. }
    destruct (assemble_split text 0 (r_end a) (reverse l)) as [_ Hd]; [lia|done|].
    rewrite Nat.sub_0_r in Ht, Hd. by rewrite Ht, Hd.
Qed.

Lemma chain_start_inj (l : list replacement) a b :
  StronglySorted (λ a b, r_end b ≤ r_start a) l →
  Forall (λ r, r_start r < r_end r) l →
  a ∈ l → b ∈ l → r_start a = r_start b → a = b.
Proof.
  induction 1 as [|x l Hs IH Hx]; intros Hne Ha Hb Heq.
  - by apply elem_of_nil in Ha.
  - apply Forall_cons in Hne as [Hx_ne Hne].
    rewrite Forall_forall in Hx, Hne.
    apply elem_of_cons in Ha as [->|Ha], Hb as [->|Hb];
      [done| | |apply IH; [by apply Forall_forall|done..]].
    + specialize (Hx b Hb). specialize (Hne b Hb). simpl in *. lia.
    + specialize (Hx a Ha). specialize (Hne a Ha). simpl in *. lia.
Qed.

Lemma StronglySorted_reverse {A} (R : relation A) (l : list A) :
  StronglySorted R l → StronglySorted (flip R) (reverse l).
Proof.
  induction 1 as [|x l Hs IH Hx]; [constructor|].
  rewrite reverse_cons. apply StronglySorted_app. split; [|split; [done|]].
  - intros x1 x2 Hx1 ->%list_elem_of_singleton.
    rewrite elem_of_reverse in Hx1.
    rewrite Forall_forall in Hx. by apply Hx.
  - repeat constructor.
Qed.

(** The pending replacements of a mapping without empty display name
    are not empty, and they lie in the text. *)
Lemma pending_extent (tex_text : str) (glossary : list (str * str)) r :
  r ∈ pending tex_text glossary →
  r_end r = r_start r + length (r_name r) ∧ r_end r ≤ length tex_text.
Proof.
  intros (term & name & m & _ & Hm & -> & _)%pending_origin. simpl.
  apply finditer_term_pattern in Hm. tauto.
Qed.

Lemma pending_nonempty (tex_text : str) (glossary : list (str * str)) r :
  (∀ term name, (term, name) ∈ glossary → name ≠ []) →
  r ∈ pending tex_text glossary → r_start r < r_end r.
Proof.
  intros Hne Hr. destruct (pending_extent _ _ _ Hr) as [He _].
  apply pending_origin in Hr as (term & name & m & Hin & _ & -> & _).
  simpl in *. specialize (Hne term name Hin). destruct name; [done|simpl in He; lia].
Qed.

(** X4: when no display name of the mapping is empty, splicing from right
    to left at original offsets is sound: the returned text is the
    original text, read from left to right, with each applied replacement
    put in place of its span; these spans follow one another inside the
    text; the change list is the list of their records in that same
    order; and what is put in is [\gls{key}] for a key of the mapping
    with the recorded display name. *)
Theorem text_assembled (tex_text : str) (glossary : list (str * str)) :
  (∀ term name, (term, name) ∈ glossary → name ≠ []) →
  let placed := reverse (applied tex_text glossary) in
  (replace_terms_with_gls tex_text glossary).1 = assemble tex_text 0 placed
  ∧ (replace_terms_with_gls tex_text glossary).2 = map record placed
  ∧ StronglySorted (λ a b, r_end a ≤ r_start b) placed
  ∧ Forall (λ r, r_start r < r_end r ≤ length tex_text) placed
  ∧ Forall (λ r, ∃ term, (term, r_name r) ∈ glossary
                         ∧ r_text r = gls_ref term) placed.
Proof.
  intros Hne placed. subst placed.
  assert (Hpend : Forall (λ r, r_start r < r_end r) (pending tex_text glossary)).
  { apply Forall_forall. intros r Hr. by eapply pending_nonempty. }
  assert (Hchain : StronglySorted (λ a b, r_end b ≤ r_start a)
                     (applied tex_text glossary)).
  { apply applied_from_chain; [|done].
    apply (sort_by_sorted descending r_start descending_asym descending_negtrans). }
  assert (Hext : Forall (λ r, r_start r < r_end r ≤ length tex_text)
                   (applied tex_text glossary)).
  { apply Forall_forall. intros r Hr%applied_pending.
    split; [by eapply pending_nonempty|by eapply pending_extent]. }
  split; [|split; [|split; [|split]]].
  - unfold replace_terms_with_gls. cbn [fst]. rewrite updated_foldl. simpl.
    apply foldl_splice_assemble; [done|].
    eapply Forall_impl; [exact Hext|]. simpl. lia.
  - rewrite replace_changes.
    apply (StronglySorted_unique_strong (may_precede ascending snd)).
    + intros x1 x2 Hx1 Hx2 H1 H2.
      rewrite (sort_by_perm ascending snd) in Hx1.
      apply list_elem_of_fmap in Hx1 as (a & -> & Ha).
      apply list_elem_of_fmap in Hx2 as (b & -> & Hb).
      rewrite elem_of_reverse in Hb.
      unfold may_precede, ascending, record in H1, H2. simpl in H1, H2.
      apply Nat.ltb_ge in H1, H2. f_equal.
      apply (chain_start_inj (applied tex_text glossary)); [done| |done..|lia].
      eapply Forall_impl; [exact Hext|]. simpl. lia.
    + apply (sort_by_sorted ascending snd ascending_asym ascending_negtrans).
    + apply StronglySorted_reverse in Hchain.
      assert (Hext' : Forall (λ r, r_start r < r_end r ≤ length tex_text)
                        (reverse (applied tex_text glossary)))
        by (by apply Forall_reverse).
      clear -Hchain Hext'.
      induction Hchain as [|x l Hs IH Hx]; [constructor|]. simpl.
      apply Forall_cons in Hext' as [Hx' Hl']. constructor; [by apply IH|].
      rewrite Forall_forall in Hx. apply Forall_forall.
      intros y (b & -> & Hb)%list_elem_of_fmap.
      specialize (Hx b Hb). unfold flip in Hx.
      unfold may_precede, ascending, record. simpl. apply Nat.ltb_ge. lia.
    + rewrite (sort_by_perm ascending snd).
      by rewrite reverse_Permutation.
  - by apply (StronglySorted_reverse _ _ Hchain).
  - by apply Forall_reverse.
  - apply Forall_reverse, Forall_forall. intros r Hr%applied_pending.
    apply pending_origin in Hr as (term & name & m & Hin & _ & -> & _).
    by exists term.
Qed.

Lemma reference_spans_protected_witness :
  gls_spans reference_text = [(4, 13)]
  ∧ ¬ 4 ≤ r_start (Replacement 14 17 (gls_ref (chars "cat")) (chars "cat")) < 13.
Proof.
  split; [vm_compute; reflexivity|].
  apply (reference_spans_protected reference_text [(chars "cat", chars "cat")]).
  - vm_compute. apply list_elem_of_here.
  - vm_compute. apply list_elem_of_here.
Defined.

Lemma change_records_sound_witness :
  4 + length (chars "c d") ≤ length chain_text
  ∧ lower <$> slice chain_text 4 (4 + length (chars "c d")) = lower <$> chars "c d".
Proof.
  apply (change_records_sound chain_text chain_glossary (chars "c d") 4).
  vm_compute. apply list_elem_of_further, list_elem_of_here.
Defined.

Lemma no_change_same_text_witness :
  (replace_terms_with_gls scenario_text scenario_glossary).1 = scenario_text.
Proof.
  apply no_change_same_text. vm_compute. reflexivity.
Defined.

Lemma text_assembled_witness :
  (replace_terms_with_gls chain_text chain_glossary).1
  = assemble chain_text 0
      [Replacement 0 3 (gls_ref (chars "k1")) (chars "a b");
       Replacement 4 7 (gls_ref (chars "k3")) (chars "c d")].
Proof.
  assert (Hne : ∀ term name, (term, name) ∈ chain_glossary → name ≠ []).
  { intros term name Hin.
    repeat (apply elem_of_cons in Hin as [[= -> ->]|Hin]; [discriminate|]).
    by apply elem_of_nil in Hin. }
  rewrite (proj1 (text_assembled chain_text chain_glossary Hne)).
  vm_compute. reflexivity.
Defined.

(** ** Candidates of any display name *)

Lemma at_boundary_skip text s n :
  at_boundary (skip n (cursor_at text s)) = at_boundary (cursor_at text (s + n)).
Proof.
  unfold at_boundary, skip, cursor_at. simpl. rewrite drop_drop. do 3 f_equal.
  destruct n as [|n]; [by rewrite Nat.add_0_r|].
  rewrite lookup_drop. by replace (s + S n) with (S (s + n)) by lia.
Qed.

Lemma match_at_term_delimited name text adv s m :
  name ≠ [] →
  match_at (term_pattern name) adv (cursor_at text s) = Some m
  ↔ m = Match s (s + length name) []
    ∧ delimited_occurrence name text s (s + length name).
Proof.
  intros Hne. rewrite match_at_term_pattern, at_boundary_skip.
  assert (Hlen : 0 < length name) by (destruct name; [done|simpl; lia]).
  assert (Hn : (length name =? 0) = false) by (apply Nat.eqb_neq; lia).
  rewrite Hn, andb_false_r, andb_true_r. simpl.
  unfold delimited_occurrence, slice.
  replace (s + length name - s) with (length name) by lia.
  destruct (at_boundary (cursor_at text s)) eqn:Hb1; simpl;
    [|split; [done|by intros (_ & _ & _ & _ & ? & _)]].
  destruct (nocase_prefix name (drop s text)) eqn:Hp; simpl.
  - apply nocase_prefix_spec in Hp as [Hle Heq]. rewrite length_drop in Hle.
    destruct (at_boundary (cursor_at text (s + length name))) eqn:Hb2.
    + split; [intros [= <-]|by intros [-> _]]. repeat split; [lia|done].
    + split; [done|]. by intros (_ & _ & _ & _ & _ & ?).
  - split; [done|]. intros (_ & _ & Hle & Heq & _).
    assert (nocase_prefix name (drop s text) = true) as Hp'
      by (apply nocase_prefix_spec; rewrite length_drop; split; [lia|done]).
    congruence.
Qed.

(** Scanning with a pattern whose matches all have the same width [n > 0]
    and depend on the offset alone. *)
Section FixedWidth.
Variables (r : regex) (text : str) (n : nat) (P : nat → Prop).
Hypothesis width_pos : 0 < n.
Hypothesis match_iff :
  ∀ s adv m, match_at r adv (cursor_at text s) = Some m
             ↔ m = Match s (s + n) [] ∧ P s.

Lemma scan_fixed_width fuel start adv :
  start ≤ length text →
  scan_measure text start adv < fuel →
  let ms := scan fuel r text start adv in
  (∀ m, m ∈ ms → start ≤ m_start m ∧ m_end m = m_start m + n ∧ P (m_start m))
  ∧ (∀ i j a b, i < j → ms !! i = Some a → ms !! j = Some b →
                m_end a ≤ m_start b)
  ∧ (∀ s, start ≤ s ≤ length text → P s →
          (∃ m, m ∈ ms ∧ m_start m = s ∧ m_end m = s + n)
          ∨ (∃ m, m ∈ ms ∧ m_start m < s < m_end m)).
Proof.
  revert start adv.
  induction fuel as [|fuel IH]; intros start adv Hstart Hfuel; [lia|].
  simpl.
  pose proof (search_cursor_at r text adv start Hstart) as Hs.
  pose proof (scan_step_measure r text start adv) as Hstep.
  destruct (search _ adv _ _ start) as [m0|].
  - destruct Hs as (p & Hp & Hm0 & Hnone).
    apply match_iff in Hm0 as [-> HP].
    destruct (Hstep _ Hstart eq_refl) as [Hend Hlt]. simpl in *.
    destruct (IH (p + n) (p + n =? p)) as (IH1 & IH2 & IH3); [lia..|].
    split; [|split].
    + intros m [->|Hin]%elem_of_cons; simpl; [split; [lia|done]|].
      apply IH1 in Hin. split; [lia|tauto].
    + intros i j a b Hij Hi Hj. destruct j as [|j]; [lia|]. simpl in Hj.
      destruct i as [|i]; simpl in Hi.
      * injection Hi as <-. simpl.
        apply list_elem_of_lookup_2, IH1 in Hj. lia.
      * apply (IH2 i j); [lia|done..].
    + intros s Hs' HPs.
      destruct (decide (s < p)) as [Hlt'|Hge].
      { assert (Hq : start ≤ s < p) by lia. specialize (Hnone s Hq).
        assert (match_at r (adv && (s =? start)) (cursor_at text s)
                = Some (Match s (s + n) [])) as Hsome by (by apply match_iff).
        congruence. }
      destruct (decide (s = p)) as [->|Hne].
      { left. eexists. split; [apply list_elem_of_here|done]. }
      destruct (decide (s < p + n)) as [Hin|Hout].
      { right. eexists. split; [apply list_elem_of_here|simpl; lia]. }
      destruct (IH3 s) as [(m & Hm & ?)|(m & Hm & ?)]; [lia|done| |].
      * left. exists m. split; [by apply list_elem_of_further|done].
      * right. exists m. split; [by apply list_elem_of_further|done].
  - split; [|split].
    + by intros m ?%elem_of_nil.
    + intros i j a b _ Hi. by rewrite lookup_nil in Hi.
    + intros s Hs' HPs. specialize (Hs s Hs').
      assert (match_at r (adv && (s =? start)) (cursor_at text s)
              = Some (Match s (s + n) [])) as Hsome by (by apply match_iff).
      congruence.
Qed.
End FixedWidth.

(** X5: for a non-empty display name, whatever its characters, the
    candidates are occurrences of the name up to case with [\b] holding
    at both ends; they are listed from left to right without overlap;
    and such an occurrence that is no candidate starts strictly inside a
    candidate. *)
Theorem delimited_candidates (name text : str) :
  name ≠ [] →
  (∀ s e, (s, e) ∈ candidate_spans name text →
          delimited_occurrence name text s e)
  ∧ (∀ i j a b, i < j →
        candidate_spans name text !! i = Some a →
        candidate_spans name text !! j = Some b →
        a.2 ≤ b.1)
  ∧ (∀ s e, delimited_occurrence name text s e →
        (s, e) ∈ candidate_spans name text
        ∨ ∃ s0 e0, (s0, e0) ∈ candidate_spans name text ∧ s0 < s < e0).
Proof.
  intros Hne. unfold candidate_spans, finditer.
  assert (Hlen : 0 < length name) by (destruct name; [done|simpl; lia]).
  destruct (scan_fixed_width (term_pattern name) text (length name)
              (λ s, delimited_occurrence name text s (s + length name)) Hlen
              (λ s adv m, match_at_term_delimited name text adv s m Hne)
              (2 * length text + 2) 0 false)
    as (H1 & H2 & H3); [lia|unfold scan_measure; lia|].
  split; [|split].
  - intros s e (m & [= -> ->] & Hm)%list_elem_of_fmap.
    destruct (H1 m Hm) as (_ & -> & HP). exact HP.
  - intros i j a b Hij Hi Hj. rewrite list_lookup_fmap in Hi, Hj.
    destruct (scan _ _ _ _ _ !! i) as [ma|] eqn:Ha; [|done].
    destruct (scan _ _ _ _ _ !! j) as [mb|] eqn:Hb; [|done].
    injection Hi as <-. injection Hj as <-. simpl. by apply (H2 i j).
  - intros s e Hw. assert (e = s + length name) as -> by apply Hw.
    assert (Hs : 0 ≤ s ≤ length text) by (destruct Hw as (_ & ? & _); lia).
    destruct (H3 s Hs Hw) as [(m & Hm & Hms & Hme)|(m & Hm & Hin)].
    + left. apply list_elem_of_fmap. exists m. split; [by rewrite Hms, Hme|done].
    + right. exists (m_start m), (m_end m). split; [|done].
      apply list_elem_of_fmap. by exists m.
Qed.

Lemma delimited_candidates_witness :
  candidate_spans (chars "+") (chars "a+b c+ +d") = [(1, 2)]
  ∧ delimited_occurrence (chars "+") (chars "a+b c+ +d") 1 2.
Proof.
  split; [vm_compute; reflexivity|].
  apply (delimited_candidates (chars "+") (chars "a+b c+ +d")); [discriminate|].
  vm_compute. apply list_elem_of_here.
Defined.

(** C1 (amended): a candidate whose matched text begins and ends with a
    word character is a case-insensitive occurrence of the display name
    as literal text with no word character next to it on either side;
    the candidates are listed from left to right and do not overlap; and
    a whole-word occurrence whose text begins and ends with a word
    character is a candidate or starts strictly inside one.  So [cat]
    has no candidate inside [category] or [concatenate]. *)
Theorem whole_word_candidates (name text : str) :
  (∀ s e, (s, e) ∈ candidate_spans name text → word_edged text s e →
          whole_word_occurrence name text s e)
  ∧ (∀ i j a b, i < j →
        candidate_spans name text !! i = Some a →
        candidate_spans name text !! j = Some b →
        a.2 ≤ b.1)
  ∧ (∀ s e, whole_word_occurrence name text s e → word_edged text s e →
        (s, e) ∈ candidate_spans name text
        ∨ ∃ s0 e0, (s0, e0) ∈ candidate_spans name text ∧ s0 < s < e0).
Proof.
  split; [|split].
  - intros s e (m & [= -> ->] & Hm)%list_elem_of_fmap (Hlt & Hs & He).
    apply finditer_term_pattern in Hm as (Hend & Hlen & Hreads & Hb1 & Hb2).
    repeat split; [done..| |].
    + unfold at_boundary, cursor_at in Hb1. simpl in Hb1.
      rewrite head_drop_lookup, Hs in Hb1.
      by destruct (word_opt (char_before text (m_start m))).
    + unfold at_boundary, cursor_at in Hb2. simpl in Hb2.
      rewrite head_drop_lookup in Hb2.
      destruct (m_end m) as [|e'] eqn:He'; [lia|]. simpl in Hb2, He.
      rewrite Nat.sub_0_r in He. rewrite He in Hb2.
      by destruct (word_opt (text !! S e')).
  - intros i j a b Hij Hi Hj. unfold candidate_spans, finditer in Hi, Hj.
    rewrite list_lookup_fmap in Hi, Hj.
    destruct (scan _ _ _ _ _ !! i) as [ma|] eqn:Ha; [|done].
    destruct (scan _ _ _ _ _ !! j) as [mb|] eqn:Hb; [|done].
    injection Hi as <-. injection Hj as <-. simpl.
    by apply (proj2 (scan_ascending (term_pattern name) text
                      (2 * length text + 2) 0 false (Nat.le_0_l _)) i j).
  - intros s e (He & Hlen & Hreads & Hb1 & Hb2) (Hlt & Hs & Hl).
    assert (Hne : name ≠ []) by (intros ->; simpl in He; lia).
    assert (Hpos : 0 < length name) by lia.
    destruct (scan_fixed_width (term_pattern name) text (length name)
                (λ s, delimited_occurrence name text s (s + length name)) Hpos
                (λ s adv m, match_at_term_delimited name text adv s m Hne)
                (2 * length text + 2) 0 false)
      as (_ & _ & H3); [lia|unfold scan_measure; lia|].
    subst e.
    assert (Hocc : delimited_occurrence name text s (s + length name)).
    { repeat split; [done..| |].
      - unfold at_boundary, cursor_at. simpl.
        by rewrite head_drop_lookup, Hs, Hb1.
      - unfold at_boundary, cursor_at. simpl. rewrite head_drop_lookup, Hb2.
        destruct (s + length name) as [|e'] eqn:He'; [lia|]. simpl.
        simpl in Hl. rewrite Nat.sub_0_r in Hl. by rewrite Hl. }
    destruct (H3 s ltac:(lia) Hocc) as [(m & Hm & Hms & Hme)|(m & Hm & Hin)].
    + left. apply list_elem_of_fmap. exists m. split; [by rewrite Hms, Hme|done].
    + right. exists (m_start m), (m_end m). split; [|done].
      apply list_elem_of_fmap. by exists m.
Qed.

Lemma whole_word_candidates_witness :
  candidate_spans (chars "cat") cat_text = [(0, 3); (25, 28)]
  ∧ whole_word_occurrence (chars "cat") cat_text 25 28.
Proof.
  split; [vm_compute; reflexivity|].
  apply (proj1 (whole_word_candidates (chars "cat") cat_text)).
  - vm_compute. apply list_elem_of_further, list_elem_of_here.
  - repeat split; [simpl; lia|reflexivity..].
Defined.

(** X6: in a candidate whose matched text ends with a non-word character
    a word character follows the match, and in one whose matched text
    begins with a non-word character a word character precedes it. *)
Theorem nonword_edge_needs_word (name text : str) (s e : nat) :
  name ≠ [] →
  (s, e) ∈ candidate_spans name text →
  (word_opt (text !! (e - 1)) = false →
   ∃ y, text !! e = Some y ∧ isword y = true)
  ∧ (word_opt (text !! s) = false →
     ∃ y, char_before text s = Some y ∧ isword y = true).
Proof.
  intros Hne (m & [= -> ->] & Hm)%list_elem_of_fmap.
  apply finditer_term_pattern in Hm as (He & Hlen & Hreads & Hb1 & Hb2).
  assert (0 < length name) by (destruct name; [done|simpl; lia]).
  split.
  - intros Hw. unfold at_boundary, cursor_at in Hb2. simpl in Hb2.
    rewrite head_drop_lookup in Hb2.
    destruct (m_end m) as [|e'] eqn:He'; [lia|]. simpl in Hb2, Hw.
    rewrite Nat.sub_0_r in Hw. rewrite Hw in Hb2. simpl in Hb2.
    destruct (text !! S e') as [z|]; [|done]. by exists z.
  - intros Hw. unfold at_boundary, cursor_at in Hb1. simpl in Hb1.
    rewrite head_drop_lookup, Hw in Hb1.
    destruct (char_before text (m_start m)) as [z|]; [|done].
    exists z. split; [done|]. simpl in Hb1. by destruct (isword z).
Qed.

Lemma nonword_edge_needs_word_witness :
  ∃ y, chars "use C++x now" !! 7 = Some y ∧ isword y = true.
Proof.
  apply (proj1 (nonword_edge_needs_word (chars "C++") (chars "use C++x now") 4 7
                  ltac:(discriminate)
                  ltac:(vm_compute; apply list_elem_of_here)));
    reflexivity.
Defined.

(** ** The empty display name *)

Lemma filter_seq_none (P : nat → Prop) `{∀ i, Decision (P i)} a n :
  (∀ q, a ≤ q < a + n → ¬ P q) → filter P (seq a n) = [].
Proof.
  revert a. induction n as [|n IH]; intros a Hq; [done|]. simpl.
  rewrite filter_cons, decide_False by (apply Hq; lia).
  apply IH. intros q ?. apply Hq. lia.
Qed.

Lemma filter_seq_first (P : nat → Prop) `{∀ i, Decision (P i)} a n p :
  a ≤ p < a + n → P p → (∀ q, a ≤ q < p → ¬ P q) →
  filter P (seq a n) = p :: filter P (seq (S p) (a + n - S p)).
Proof.
  revert a. induction n as [|n IH]; intros a Hp HP Hq; [lia|]. simpl.
  rewrite filter_cons. destruct (decide (a = p)) as [->|Hne].
  - rewrite decide_True by done. do 3 f_equal. lia.
  - rewrite decide_False by (apply Hq; lia).
    rewrite (IH (S a)); [do 3 f_equal; lia|lia|done|].
    intros q ?. apply Hq. lia.
Qed.

Lemma match_at_empty_name text adv p :
  match_at (term_pattern []) adv (cursor_at text p)
  = if at_boundary (cursor_at text p) && negb adv
    then Some (Match p p []) else None.
Proof.
  rewrite match_at_term_pattern. simpl. rewrite skip_0, Nat.add_0_r.
  rewrite andb_true_r, andb_diag. by destruct adv.
Qed.

Lemma scan_empty_name text fuel start adv :
  start ≤ length text →
  scan_measure text start adv < fuel →
  scan fuel (term_pattern []) text start adv
  = map (λ i, Match i i [])
      (filter (λ i, at_boundary (cursor_at text i) = true)
         (seq (if adv then S start else start)
              (S (length text) - (if adv then S start else start)))).
Proof.
  revert start adv.
  induction fuel as [|fuel IH]; intros start adv Hstart Hfuel; [lia|].
  simpl.
  pose proof (search_cursor_at (term_pattern []) text adv start Hstart) as Hs.
  pose proof (scan_step_measure (term_pattern []) text start adv) as Hstep.
  set (first := if adv then S start else start) in *.
  destruct (search _ adv _ _ start) as [m0|].
  - destruct Hs as (p & Hp & Hm0 & Hnone).
    destruct (Hstep _ Hstart eq_refl) as [Hend Hlt].
    rewrite match_at_empty_name in Hm0.
    destruct (at_boundary (cursor_at text p)) eqn:Hb; [|done].
    destruct (negb (adv && (p =? start))) eqn:Hadv; [|done].
    simpl in Hm0. injection Hm0 as <-. cbn [m_end m_start] in *.
    rewrite Nat.eqb_refl in Hlt |- *.
    assert (Hfirst : first ≤ p).
    { unfold first. destruct adv; [|lia]. simpl in Hadv.
      apply negb_true_iff, Nat.eqb_neq in Hadv. lia. }
    assert (Hm : scan_measure text p true < fuel) by (clear -Hlt Hfuel; lia).
    rewrite (IH p true Hend Hm).
    rewrite (filter_seq_first _ first _ p); [|clear -Hfirst Hend; lia|done|].
    + replace (first + (S (length text) - first) - S p)
        with (S (length text) - S p) by (clear -Hfirst Hend; lia).
      done.
    + intros q Hq. assert (Hq' : start ≤ q < p) by (unfold first in *; destruct adv; lia).
      specialize (Hnone q Hq'). rewrite match_at_empty_name in Hnone.
      assert (Hqs : (adv && (q =? start)) = false).
      { destruct adv; [|done]. simpl. apply Nat.eqb_neq. unfold first in *. lia. }
      rewrite Hqs in Hnone. simpl in Hnone. rewrite andb_true_r in Hnone.
      by destruct (at_boundary (cursor_at text q)).
  - rewrite filter_seq_none; [done|].
    intros q Hq. assert (Hq' : start ≤ q ≤ length text)
      by (unfold first in *; destruct adv; lia).
    specialize (Hs q Hq'). rewrite match_at_empty_name in Hs.
    assert (Hqs : (adv && (q =? start)) = false).
    { destruct adv; [|done]. simpl. apply Nat.eqb_neq. unfold first in *. lia. }
    rewrite Hqs in Hs. simpl in Hs. rewrite andb_true_r in Hs.
    by destruct (at_boundary (cursor_at text q)).
Qed.

(** X7: for the empty display name the candidates are the zero-width
    spans at all the offsets of the text at which [\b] holds, and only
    those, once each and from left to right. *)
Theorem empty_name_candidates (text : str) :
  candidate_spans [] text = map (λ i, (i, i)) (boundary_offsets text).
Proof.
  unfold candidate_spans, finditer, boundary_offsets.
  rewrite scan_empty_name by (unfold scan_measure; lia).
  rewrite Nat.sub_0_r. by rewrite map_map.
Qed.

(** ** The definition spans of step 1 *)

Lemma insert_fold_lookup {A} (f : A → str) (g : A → nat * nat)
    (d : gmap str (nat * nat)) (l : list A) (k : str) :
  foldl (λ defs m, <[f m := g m]> defs) d l !! k
  = match last (filter (λ m, f m = k) l) with
    | Some m => Some (g m)
    | None => d !! k
    end.
Proof.
  revert d. induction l as [|x l IH]; intros d; simpl; [done|].
  rewrite IH, filter_cons. destruct (decide (f x = k)) as [Hk|Hk].
  - destruct (filter _ l) as [|y l'] eqn:Hf.
    + simpl. by rewrite Hk, lookup_insert_eq.
    + rewrite last_cons_cons.
      destruct (last (y :: l')) eqn:Hl; [done|]. by apply last_None in Hl.
  - by rewrite lookup_insert_ne.
Qed.

(** X8: the span recorded for a key in step 1 is that of the last match
    of the definition pattern whose first group is exactly that key; a
    key that no match carries has no span. *)
Theorem defs_last_wins (tex_text key : str) :
  glossary_defs tex_text !! key
  = (λ m, (m_start m, m_end m))
      <$> last (filter (λ m, group tex_text m 1 = key)
                  (finditer definition_pattern tex_text)).
Proof.
  unfold glossary_defs. rewrite insert_fold_lookup, lookup_empty.
  by destruct (last _).
Qed.

(** ** The caller *)

(** X9: [main] previews the initial part of the change list, at most
    ten records and all of them when there are no more than ten; these
    are the leftmost ones, no previewed record lies right of a record at
    the same or a later place of the list; and the number of replacements
    reported is the number of replacements applied. *)
Theorem main_preview_leftmost (tex_text : str) :
  preview (main tex_text)
  = take 10 (replace_terms_with_gls tex_text (extract_glossary_terms tex_text)).2
  ∧ length (preview (main tex_text))
    = length (replace_terms_with_gls tex_text
                (extract_glossary_terms tex_text)).2 `min` 10
  ∧ applied_count (main tex_text)
    = length (applied tex_text (extract_glossary_terms tex_text))
  ∧ ∀ i j a b,
      preview (main tex_text) !! i = Some a →
      (replace_terms_with_gls tex_text (extract_glossary_terms tex_text)).2 !! j
        = Some b →
      i ≤ j → a.2 ≤ b.2.
Proof.
  unfold main.
  destruct (replace_terms_with_gls tex_text (extract_glossary_terms tex_text))
    as [updated chs] eqn:Hrun.
  assert (Hch : chs = (replace_terms_with_gls tex_text
                         (extract_glossary_terms tex_text)).2)
    by (by rewrite Hrun).
  simpl. split; [done|]. split; [rewrite length_take; lia|]. split.
  - rewrite Hch, replace_changes.
    rewrite (Permutation_length (sort_by_perm ascending snd _)).
    apply length_map.
  - intros i j a b Hi Hj Hij. apply lookup_take_Some in Hi as [Hi _].
    destruct (decide (i = j)) as [->|Hne]; [by simplify_eq|].
    rewrite Hch, replace_changes in Hi, Hj.
    pose proof (sort_by_lookup ascending snd ascending_asym ascending_negtrans
                  _ i j a b ltac:(lia) Hi Hj) as H.
    unfold ascending in H. by apply Nat.ltb_ge in H.
Qed.

(** X10: on a text in which no definition is recognized, [main] writes
    the text back unchanged and reports no term and no replacement. *)
Theorem main_no_definitions (tex_text : str) :
  findall2 entry_pattern tex_text = [] →
  main tex_text = MainResult 0 0 [] tex_text.
Proof.
  intros Hnone. unfold main, extract_glossary_terms. by rewrite Hnone.
Qed.

Lemma main_no_definitions_witness :
  main chain_text = MainResult 0 0 [] chain_text.
Proof.
  apply main_no_definitions. vm_compute. reflexivity.
Defined.

Lemma main_preview_leftmost_witness :
  preview (main nested_names_text) = [(chars "b", 46); (chars "b", 78)]
  ∧ (chars "b", 46).2 ≤ (chars "b", 78).2.
Proof.
  split; [vm_compute; reflexivity|].
  apply (proj2 (proj2 (proj2 (main_preview_leftmost nested_names_text))) 0 1);
    [vm_compute; reflexivity..|lia].
Defined.

(** ** Running the literal parts and the repetitions of a pattern *)

Lemma run_seqs_cons r rs c k :
  run (seqs (r :: rs)) c k = run r c (λ c', run (seqs rs) c' k).
Proof. reflexivity. Qed.

Lemma run_seqs_nil c k : run (seqs []) c k = k c.
Proof. reflexivity. Qed.

Lemma run_lit s c k :
  run (lit s) c k = if starts_with s (ahead c) then k (skip (length s) c) else None.
Proof.
  revert c. induction s as [|x s IH]; intros c; simpl.
  - by rewrite skip_0.
  - destruct (ahead c) as [|y rest] eqn:Hc; [done|].
    destruct (is_char x y); [|done]. simpl.
    rewrite IH. simpl. by rewrite skip_advance.
Qed.

Lemma starts_with_spec s rest :
  starts_with s rest = true ↔ take (length s) rest = s.
Proof.
  revert rest. induction s as [|x s IH]; intros [|y rest]; simpl; try done.
  rewrite andb_true_iff, IH. unfold is_char. rewrite Ascii.eqb_eq.
  split; [by intros [-> ->]|]. by intros [= -> ->].
Qed.

Lemma starts_with_char x rest :
  starts_with [x] rest = true ↔ head rest = Some x.
Proof.
  destruct rest as [|y rest]; simpl; [done|].
  rewrite andb_true_r. unfold is_char. rewrite Ascii.eqb_eq.
  split; [by intros ->|by intros [= ->]].
Qed.

Lemma starts_with_length s rest : starts_with s rest = true → length s ≤ length rest.
Proof.
  revert rest. induction s as [|x s IH]; intros [|y rest]; simpl; try done; [lia|].
  intros [_ H%IH]%andb_true_iff. lia.
Qed.

Section StarSpec.
Context {R : Type} (p : ascii → bool) (k : cursor → option R).

(** A lazy repetition stops at the first count at which what follows
    succeeds. *)
Lemma star_lazy_first rest c res :
  ahead c = rest →
  star_lazy p k rest c = Some res →
  ∃ n, n ≤ length rest
       ∧ (∀ i x, i < n → rest !! i = Some x → p x = true)
       ∧ k (skip n c) = Some res
       ∧ ∀ j, j < n → k (skip j c) = None.
Proof.
  revert c. induction rest as [|x rest IH]; intros c Hc; simpl.
  - destruct (k c) eqn:Hk; [|done]. intros [= <-]. exists 0.
    rewrite skip_0. repeat split; [done|lia|done|lia].
  - destruct (k c) eqn:Hk.
    { intros [= <-]. exists 0. rewrite skip_0.
      repeat split; [lia|lia|done|lia]. }
    destruct (p x) eqn:Hp; [|done].
    intros (n & Hn & Hall & Hkn & Hfirst)%IH; [|done].
    exists (S n). rewrite <- (skip_advance n x rest c Hc).
    repeat split; [lia| |done|].
    + intros [|i] y Hi; simpl; [by intros [= <-]|]. apply Hall. lia.
    + intros [|j] Hj; [by rewrite skip_0|].
      rewrite <- (skip_advance j x rest c Hc). apply Hfirst. lia.
Qed.

(** A greedy repetition stops at some count of characters of the class. *)
Lemma star_greedy_some rest c res :
  ahead c = rest →
  star_greedy p k rest c = Some res →
  ∃ n, n ≤ length rest
       ∧ (∀ i x, i < n → rest !! i = Some x → p x = true)
       ∧ k (skip n c) = Some res.
Proof.
  revert c. induction rest as [|x rest IH]; intros c Hc; simpl.
  - intros Hk. exists 0. rewrite skip_0. repeat split; [done|lia|done].
  - assert (Hzero : k c = Some res →
        ∃ n, n ≤ S (length rest)
             ∧ (∀ i y, i < n → (x :: rest) !! i = Some y → p y = true)
             ∧ k (skip n c) = Some res).
    { intros Hk. exists 0. rewrite skip_0. repeat split; [lia|lia|done]. }
    destruct (p x) eqn:Hp; [|done].
    destruct (star_greedy p k rest (advance x rest c)) eqn:Hs; [|done].
    intros [= <-]. apply IH in Hs as (n & Hn & Hall & Hkn); [|done].
    exists (S n). rewrite <- (skip_advance n x rest c Hc).
    repeat split; [lia| |done].
    intros [|i] y Hi; simpl; [by intros [= <-]|]. apply Hall. lia.
Qed.
End StarSpec.

(** Cursors in normal form: a group list on the cursor of an offset. *)
Lemma regroup_cursor_at text p : cursor_at text p = regroup [] (cursor_at text p).
Proof. reflexivity. Qed.

Lemma skip_regroup text g p n :
  skip n (regroup g (cursor_at text p)) = regroup g (cursor_at text (p + n)).
Proof.
  unfold skip, regroup, cursor_at. simpl. rewrite drop_drop. f_equal.
  destruct n as [|n]; [by rewrite Nat.add_0_r|].
  rewrite lookup_drop. by replace (p + S n) with (S (p + n)) by lia.
Qed.

Lemma close_group_regroup text g p n start :
  close_group n start (regroup g (cursor_at text p))
  = regroup ((n, (start, p)) :: g) (cursor_at text p).
Proof. reflexivity. Qed.

Lemma ahead_regroup text g p : ahead (regroup g (cursor_at text p)) = drop p text.
Proof. reflexivity. Qed.

Lemma offset_regroup text g p : offset (regroup g (cursor_at text p)) = p.
Proof. reflexivity. Qed.

Lemma starts_with_drop s text p :
  p ≤ length text →
  starts_with s (drop p text) = true →
  slice text p (p + length s) = s ∧ p + length s ≤ length text.
Proof.
  intros Hp H. pose proof (starts_with_length _ _ H) as Hlen.
  rewrite length_drop in Hlen. apply starts_with_spec in H.
  unfold slice. replace (p + length s - p) with (length s) by lia.
  split; [done|lia].
Qed.

Lemma run_star_lazy p c k : run (Star false p) c k = star_lazy p k (ahead c) c.
Proof. reflexivity. Qed.

Lemma run_star_greedy p c k : run (Star true p) c k = star_greedy p k (ahead c) c.
Proof. reflexivity. Qed.

Lemma run_group n r c k :
  run (Group n r) c k = run r c (λ c', k (close_group n (offset c) c')).
Proof. reflexivity. Qed.

(** The literal at the head of a sequence, run at a cursor in normal
    form: it must be read there, and the rest runs behind it. *)
Ltac step_lit H Hlit :=
  rewrite run_seqs_cons, run_lit, ahead_regroup in H;
  match type of H with
  | context [starts_with ?a ?b] => destruct (starts_with a b) eqn:Hlit
  end; cbv iota in H; [|discriminate H];
  rewrite skip_regroup in H; cbv beta in H.

(** ** The spans of existing references (step 2) *)

Lemma match_at_gls text adv s m :
  s ≤ length text →
  match_at gls_pattern adv (cursor_at text s) = Some m →
  ∃ n, m = Match s (s + 6 + n) []
       ∧ s + 6 + n ≤ length text
       ∧ slice text s (s + 5) = chars "\gls{"
       ∧ text !! (s + 5 + n) = Some "}"%char
       ∧ ∀ i x, s + 5 ≤ i < s + 5 + n → text !! i = Some x →
                x ≠ "}"%char ∧ x ≠ newline.
Proof.
  intros Hs. unfold match_at.
  set (kfin := λ c' : cursor, if adv && (offset c' =? offset (cursor_at text s))
                              then None else Some c').
  destruct (run gls_pattern (cursor_at text s) kfin) as [c'|] eqn:Hrun; [|done].
  intros [= <-]. unfold gls_pattern in Hrun. rewrite regroup_cursor_at in Hrun.
  step_lit Hrun H1. step_lit Hrun H2.
  rewrite run_seqs_cons, run_star_lazy in Hrun.
  apply star_lazy_first in Hrun as (n & Hn & Hall & Hk & Hfirst); [|done].
  rewrite ahead_regroup, length_drop in Hn.
  rewrite skip_regroup in Hk. step_lit Hk H3. rewrite run_seqs_nil in Hk.
  apply starts_with_drop in H1 as [H1 H1']; [|done].
  change (length (chars "\gls")) with 4 in *.
  apply starts_with_drop in H2 as [H2 H2']; [|lia].
  change (length (chars "{")) with 1 in *.
  change (length (chars "}")) with 1 in *.
  apply starts_with_char in H3. rewrite head_drop_lookup in H3.
  assert (Hlt : s + 4 + 1 + n < length text) by (by apply lookup_lt_Some in H3).
  unfold kfin in Hk. rewrite offset_regroup in Hk. simpl offset in Hk.
  assert (Hne : (s + 4 + 1 + n + 1 =? s) = false) by (apply Nat.eqb_neq; lia).
  rewrite Hne, andb_false_r in Hk. injection Hk as <-. simpl.
  exists n. repeat split.
  - f_equal. lia.
  - lia.
  - unfold slice in *. replace (s + 5 - s) with 5 by lia.
    replace (s + 4 - s) with 4 in H1 by lia.
    replace (s + 4 + 1 - (s + 4)) with 1 in H2 by lia.
    rewrite <- (take_take_drop _ 4 1), H1. rewrite drop_drop, H2. done.
  - by replace (s + 5 + n) with (s + 4 + 1 + n) by lia.
  - intros ->. assert (Hj : i - (s + 5) < n) by lia.
    specialize (Hfirst _ Hj). cbv beta in Hfirst. rewrite skip_regroup in Hfirst.
    rewrite run_seqs_cons, run_lit, ahead_regroup in Hfirst.
    replace (s + 4 + 1 + (i - (s + 5))) with i in Hfirst by lia.
    assert (Hst : starts_with (chars "}") (drop i text) = true).
    { apply starts_with_char. by rewrite head_drop_lookup. }
    rewrite Hst, skip_regroup, run_seqs_nil in Hfirst. unfold kfin in Hfirst.
    rewrite offset_regroup in Hfirst. simpl offset in Hfirst.
    assert (Hne' : (i + length (chars "}") =? s) = false)
      by (apply Nat.eqb_neq; lia).
    by rewrite Hne', andb_false_r in Hfirst.
  - intros ->. assert (Hj : i - (s + 5) < n) by lia.
    specialize (Hall (i - (s + 5)) newline Hj). rewrite ahead_regroup in Hall.
    rewrite lookup_drop in Hall.
    replace (s + 4 + 1 + (i - (s + 5))) with i in Hall by lia.
    by specialize (Hall H0).
Qed.

(** X11: every span that step 2 records for an existing reference lies
    in the text, begins with [\gls{] and ends with the first closing
    brace after it, with no newline in between; the spans are recorded
    from left to right and do not overlap. *)
Theorem gls_spans_shape (text : str) :
  (∀ s e, (s, e) ∈ gls_spans text →
      s + 6 ≤ e ≤ length text
      ∧ slice text s (s + 5) = chars "\gls{"
      ∧ text !! (e - 1) = Some "}"%char
      ∧ ∀ i x, s + 5 ≤ i < e - 1 → text !! i = Some x →
               x ≠ "}"%char ∧ x ≠ newline)
  ∧ (∀ i j a b, i < j →
        gls_spans text !! i = Some a → gls_spans text !! j = Some b →
        a.2 ≤ b.1).
Proof.
  unfold gls_spans, finditer. split.
  - intros s e (m & [= -> ->] & Hm)%list_elem_of_fmap.
    apply scan_matches in Hm as (p & adv & Hp & Hm); [|lia].
    apply match_at_gls in Hm as (n & -> & Hlen & Hhead & Hclose & Hbody); [|lia].
    simpl. replace (p + 6 + n - 1) with (p + 5 + n) by lia.
    split; [lia|]. split; [done|]. split; [done|].
    intros i x Hi Hx. apply (Hbody i x); [lia|done].
  - intros i j a b Hij Hi Hj. rewrite list_lookup_fmap in Hi, Hj.
    destruct (scan _ _ _ _ _ !! i) as [ma|] eqn:Ha; [|done].
    destruct (scan _ _ _ _ _ !! j) as [mb|] eqn:Hb; [|done].
    injection Hi as <-. injection Hj as <-. simpl.
    by apply (proj2 (scan_ascending gls_pattern text (2 * length text + 2) 0 false
                       (Nat.le_0_l _)) i j).
Qed.

Lemma gls_spans_shape_witness :
  slice scenario_text 67 (67 + 5) = chars "\gls{"
  ∧ scenario_text !! (76 - 1) = Some "}"%char.
Proof.
  destruct (proj1 (gls_spans_shape scenario_text) 67 76) as (_ & H1 & H2 & _).
  - vm_compute. apply list_elem_of_here.
  - by split.
Defined.

(** ** What the extractor's pattern matches *)

Lemma match_at_entry text adv s m :
  s ≤ length text →
  match_at entry_pattern adv (cursor_at text s) = Some m →
  ∃ j1 i j,
    m_start m = s ∧ m_end m = S j ∧ j < length text
    ∧ slice text s (s + 18) = chars "\newglossaryentry{"
    ∧ s + 18 ≤ j1 ∧ j1 + 8 ≤ i ∧ i ≤ j
    ∧ text !! j1 = Some "}"%char
    ∧ slice text (i - 6) i = chars "name={"
    ∧ text !! j = Some "}"%char
    ∧ (∀ q, i ≤ q < j → text !! q ≠ Some "}"%char)
    ∧ group text m 1 = slice text (s + 18) j1
    ∧ group text m 2 = slice text i j.
Proof.
  intros Hs. unfold match_at.
  set (kfin := λ c' : cursor, if adv && (offset c' =? offset (cursor_at text s))
                              then None else Some c').
  destruct (run entry_pattern (cursor_at text s) kfin) as [c'|] eqn:Hrun; [|done].
  intros [= <-]. unfold entry_pattern in Hrun. rewrite regroup_cursor_at in Hrun.
  step_lit Hrun H1. step_lit Hrun H2.
  rewrite run_seqs_cons, run_group, run_star_lazy in Hrun.
  apply star_lazy_first in Hrun as (n1 & _ & _ & Hk & _); [|done].
  rewrite skip_regroup, offset_regroup, close_group_regroup in Hk.
  step_lit Hk H3.
  rewrite run_seqs_cons, run_star_greedy in Hk.
  apply star_greedy_some in Hk as (n2 & _ & _ & Hk); [|done].
  rewrite skip_regroup in Hk. step_lit Hk H4.
  rewrite run_seqs_cons, run_star_lazy in Hk.
  apply star_lazy_first in Hk as (n3 & _ & _ & Hk & _); [|done].
  rewrite skip_regroup in Hk. step_lit Hk H5.
  rewrite run_seqs_cons, run_group, run_star_lazy in Hk.
  apply star_lazy_first in Hk as (n4 & _ & _ & Hk & Hfirst); [|done].
  rewrite skip_regroup, offset_regroup, close_group_regroup in Hk.
  step_lit Hk H6. rewrite run_seqs_nil in Hk.
  apply starts_with_drop in H1 as [H1 H1']; [|done].
  change (length marker) with 17 in *.
  apply starts_with_drop in H2 as [H2 H2']; [|lia].
  change (length (chars "{")) with 1 in *.
  change (length (chars "}")) with 1 in *.
  change (length (chars "name={")) with 6 in *.
  apply starts_with_char in H3, H6. rewrite head_drop_lookup in H3, H6.
  pose proof (lookup_lt_Some _ _ _ H6) as Hlt.
  apply starts_with_drop in H5 as [H5 _]; [|lia].
  change (length (chars "name={")) with 6 in *.
  unfold kfin in Hk. rewrite offset_regroup in Hk. simpl offset in Hk.
  set (j1 := s + 17 + 1 + n1) in *.
  set (i := j1 + 1 + n2 + 1 + n3 + 6) in *.
  assert (Hne : (i + n4 + 1 =? s) = false) by (apply Nat.eqb_neq; lia).
  rewrite Hne, andb_false_r in Hk. injection Hk as <-.
  exists j1, i, (i + n4). simpl.
  split; [done|]. split; [lia|]. split; [done|]. split.
  { unfold slice in *. replace (s + 18 - s) with 18 by lia.
    replace (s + 17 - s) with 17 in H1 by lia.
    replace (s + 17 + 1 - (s + 17)) with 1 in H2 by lia.
    rewrite <- (take_take_drop _ 17 1), H1. rewrite drop_drop, H2. done. }
  split; [lia|]. split; [lia|]. split; [lia|]. split; [done|]. split.
  { replace (i - 6) with (j1 + 1 + n2 + 1 + n3) by lia. exact H5. }
  split; [done|]. split.
  { intros q Hq Hbrace. assert (Hj : q - i < n4) by lia.
    specialize (Hfirst _ Hj). cbv beta in Hfirst.
    rewrite skip_regroup, offset_regroup, close_group_regroup in Hfirst.
    rewrite run_seqs_cons, run_lit, ahead_regroup in Hfirst.
    replace (i + (q - i)) with q in Hfirst by lia.
    assert (Hst : starts_with (chars "}") (drop q text) = true).
    { apply starts_with_char. by rewrite head_drop_lookup. }
    rewrite Hst, skip_regroup, run_seqs_nil in Hfirst. unfold kfin in Hfirst.
    rewrite offset_regroup in Hfirst. simpl offset in Hfirst.
    assert (Hne' : (q + length (chars "}") =? s) = false)
      by (apply Nat.eqb_neq; simpl; lia).
    by rewrite Hne', andb_false_r in Hfirst. }
  split.
  - unfold group. simpl. by replace (s + 17 + 1) with (s + 18) by lia.
  - unfold group. simpl. done.
Qed.

Lemma elem_of_strip x (s : str) : x ∈ strip s → x ∈ s.
Proof.
  destruct (strip_spec s) as [(ws1 & ws2 & Hs & _) _]. intros Hx.
  rewrite Hs, !elem_of_app. auto.
Qed.

Lemma elem_of_slice x (text : str) i j :
  x ∈ slice text i j → ∃ q, i ≤ q < j ∧ text !! q = Some x.
Proof.
  unfold slice. intros (k & Hk)%list_elem_of_lookup.
  apply lookup_take_Some in Hk as [Hk Hlt]. rewrite lookup_drop in Hk.
  exists (i + k). split; [lia|done].
Qed.

(** X12: every entry of the extractor's mapping comes from a place of the
    text that reads [\newglossaryentry{]: the key is the trimmed text
    from there to a closing brace, and the display name is the trimmed
    text between a later [name={] and the first closing brace after it,
    so that no display name contains a closing brace. *)
Theorem extracted_entry_origin (tex_text : str) :
  ∀ key name,
    (key, name) ∈ extract_glossary_terms tex_text →
    ∃ s j1 i j,
      slice tex_text s (s + 18) = chars "\newglossaryentry{"
      ∧ s + 18 ≤ j1 ∧ j1 + 8 ≤ i ∧ i ≤ j < length tex_text
      ∧ tex_text !! j1 = Some "}"%char
      ∧ key = strip (slice tex_text (s + 18) j1)
      ∧ slice tex_text (i - 6) i = chars "name={"
      ∧ tex_text !! j = Some "}"%char
      ∧ name = strip (slice tex_text i j)
      ∧ "}"%char ∉ name.
Proof.
  intros key name Hin. unfold extract_glossary_terms, Dict.of_list in Hin.
  apply dict_fold_elem_of in Hin as [Hin|Hin]; [by apply elem_of_nil in Hin|].
  apply list_elem_of_fmap in Hin as ([g1 g2] & [= -> ->] & Hin).
  unfold findall2 in Hin.
  apply list_elem_of_fmap in Hin as (m & [= -> ->] & Hm).
  apply scan_matches in Hm as (p & adv & Hp & Hm); [|lia].
  apply match_at_entry in Hm
    as (j1 & i & j & _ & _ & Hj & Hhead & H1 & H2 & H3 & Hb1 & Hname & Hb2
        & Hno & Hg1 & Hg2); [|lia].
  exists p, j1, i, j. rewrite Hg1, Hg2.
  repeat split; [done|lia|lia|lia|lia|done..|].
  intros (q & Hq & Hbrace)%elem_of_strip%elem_of_slice. by apply (Hno q).
Qed.

Lemma extracted_entry_origin_witness : "}"%char ∉ chars "cat".
Proof.
  destruct (extracted_entry_origin padded_key_text (chars "cpp") (chars "cat"))
    as (s & j1 & i & j & H); [vm_compute; apply list_elem_of_here|].
  apply H.
Defined.

(** ** What the definition pattern matches (step 1) *)

Lemma run_alt r1 r2 c k :
  run (Alt r1 r2) c k
  = match run r1 c k with Some res => Some res | None => run r2 c k end.
Proof. reflexivity. Qed.

Lemma run_seq r1 r2 c k : run (Seq r1 r2) c k = run r1 c (λ c', run r2 c' k).
Proof. reflexivity. Qed.

Lemma run_ahead r c k :
  run (Ahead r) c k = match run r c Some with Some _ => k c | None => None end.
Proof. reflexivity. Qed.

Lemma lookahead_definition_end text g e res :
  e ≤ length text →
  run (Alt (Seq (Star true isspace) (lit marker)) Dollar)
      (regroup g (cursor_at text e)) Some = Some res →
  definition_may_end text e.
Proof.
  intros He. rewrite run_alt.
  destruct (run (Seq _ _) _ Some) as [res'|] eqn:Hnext.
  - intros _. left. rewrite run_seq, run_star_greedy in Hnext.
    apply star_greedy_some in Hnext as (w & Hw & Hall & Hk); [|done].
    rewrite ahead_regroup, length_drop in Hw.
    rewrite skip_regroup, run_lit, ahead_regroup in Hk.
    destruct (starts_with marker (drop (e + w) text)) eqn:Hm; [|done].
    apply starts_with_drop in Hm as [Hm _]; [|lia].
    exists w. split; [|done]. intros i x Hi Hx.
    apply (Hall (i - e)); [lia|]. rewrite ahead_regroup, lookup_drop.
    by replace (e + (i - e)) with i by lia.
  - simpl. unfold at_dollar. simpl.
    destruct (drop e text) as [|x [|y rest]] eqn:Hd; [| |done].
    + intros _. right; left.
      apply (f_equal length) in Hd. rewrite length_drop in Hd. simpl in Hd. lia.
    + destruct (Ascii.eqb x newline) eqn:Hx; [|done]. intros _. right; right.
      apply Ascii.eqb_eq in Hx as ->.
      pose proof (f_equal length Hd) as Hl. rewrite length_drop in Hl.
      simpl in Hl. split; [lia|]. by rewrite <- head_drop_lookup, Hd.
Qed.

Lemma match_at_definition text adv s m :
  s ≤ length text →
  match_at definition_pattern adv (cursor_at text s) = Some m →
  ∃ j1,
    m_start m = s ∧ m_end m ≤ length text
    ∧ slice text s (s + 18) = chars "\newglossaryentry{"
    ∧ s + 18 ≤ j1 ∧ j1 + 3 ≤ m_end m
    ∧ text !! j1 = Some "}"%char
    ∧ group text m 1 = slice text (s + 18) j1
    ∧ text !! (m_end m - 1) = Some "}"%char
    ∧ definition_may_end text (m_end m).
Proof.
  intros Hs. unfold match_at.
  set (kfin := λ c' : cursor, if adv && (offset c' =? offset (cursor_at text s))
                              then None else Some c').
  destruct (run definition_pattern (cursor_at text s) kfin) as [c'|] eqn:Hrun;
    [|done].
  intros [= <-]. unfold definition_pattern in Hrun.
  rewrite regroup_cursor_at in Hrun.
  step_lit Hrun H1. step_lit Hrun H2.
  rewrite run_seqs_cons, run_group, run_star_lazy in Hrun.
  apply star_lazy_first in Hrun as (n1 & _ & _ & Hk & _); [|done].
  rewrite skip_regroup, offset_regroup, close_group_regroup in Hk.
  step_lit Hk H3.
  rewrite run_seqs_cons, run_star_greedy in Hk.
  apply star_greedy_some in Hk as (n2 & _ & _ & Hk); [|done].
  rewrite skip_regroup in Hk. step_lit Hk H4.
  rewrite run_seqs_cons, run_star_lazy in Hk.
  apply star_lazy_first in Hk as (n3 & _ & _ & Hk & _); [|done].
  rewrite skip_regroup in Hk. step_lit Hk H5.
  rewrite run_seqs_cons, run_ahead in Hk.
  destruct (run (Alt _ _) _ Some) as [res|] eqn:Hlook; [|done].
  rewrite run_seqs_nil in Hk.
  apply starts_with_drop in H1 as [H1 H1']; [|done].
  change (length marker) with 17 in *.
  apply starts_with_drop in H2 as [H2 H2']; [|lia].
  change (length (chars "{")) with 1 in *.
  change (length (chars "}")) with 1 in *.
  apply starts_with_char in H3, H5. rewrite head_drop_lookup in H3, H5.
  pose proof (lookup_lt_Some _ _ _ H5) as Hlt.
  unfold kfin in Hk. rewrite offset_regroup in Hk. simpl offset in Hk.
  set (j1 := s + 17 + 1 + n1) in *.
  set (j := j1 + 1 + n2 + 1 + n3) in *.
  assert (Hne : (j + 1 =? s) = false) by (apply Nat.eqb_neq; lia).
  rewrite Hne, andb_false_r in Hk. injection Hk as <-.
  apply lookahead_definition_end in Hlook; [|lia].
  exists j1. simpl.
  split; [done|]. split; [lia|]. split.
  { unfold slice in *. replace (s + 18 - s) with 18 by lia.
    replace (s + 17 - s) with 17 in H1 by lia.
    replace (s + 17 + 1 - (s + 17)) with 1 in H2 by lia.
    rewrite <- (take_take_drop _ 17 1), H1. rewrite drop_drop, H2. done. }
  split; [lia|]. split; [lia|]. split; [done|]. split.
  { unfold group. simpl. by replace (s + 17 + 1) with (s + 18) by lia. }
  split; [|done]. by replace (j + 1 - 1) with j by lia.
Qed.

(** X13: a definition span recorded in step 1 starts where the text
    reads [\newglossaryentry{]; its key is the text from there to a
    closing brace, as written (untrimmed); and it ends right after a
    closing brace that is followed by whitespace and another definition,
    or by the end of the text, or by a newline that ends the text. *)
Theorem definition_span_shape (tex_text key : str) (s e : nat) :
  glossary_defs tex_text !! key = Some (s, e) →
  slice tex_text s (s + 18) = chars "\newglossaryentry{"
  ∧ (∃ j1, s + 18 ≤ j1 ∧ j1 + 3 ≤ e
           ∧ tex_text !! j1 = Some "}"%char
           ∧ key = slice tex_text (s + 18) j1)
  ∧ e ≤ length tex_text
  ∧ tex_text !! (e - 1) = Some "}"%char
  ∧ definition_may_end tex_text e.
Proof.
  unfold glossary_defs. rewrite insert_fold_lookup, lookup_empty.
  destruct (last _) as [m|] eqn:Hlast; [|done]. intros [= <- <-].
  apply last_Some_elem_of, list_elem_of_filter in Hlast as [Hkey Hm].
  apply scan_matches in Hm as (p & adv & Hp & Hm); [|lia].
  apply match_at_definition in Hm
    as (j1 & Hstart & Hend & Hhead & H1 & H2 & Hb & Hg & Hclose & Hfollow); [|lia].
  rewrite Hstart. split; [done|]. split; [|done].
  exists j1. repeat split; [done..|]. by rewrite <- Hkey.
Qed.

Lemma definition_span_shape_witness :
  slice padded_key_text 0 (0 + 18) = chars "\newglossaryentry{"
  ∧ definition_may_end padded_key_text 36.
Proof.
  destruct (definition_span_shape padded_key_text (chars " cpp ") 0 36)
    as (H1 & _ & _ & _ & H2); [vm_compute; reflexivity|].
  by split.
Defined.

(** ** The letter case of display names *)

Lemma lit_nocase_lower (name name' : str) :
  lower <$> name = lower <$> name' → lit_nocase name = lit_nocase name'.
Proof.
  revert name'. induction name as [|x name IH]; intros [|y name']; try done.
  intros [= Hxy Hrest]. simpl. rewrite (IH name' Hrest).
  unfold is_char_nocase. by rewrite Hxy.
Qed.

Lemma term_pattern_lower (name name' : str) :
  lower <$> name = lower <$> name' → term_pattern name = term_pattern name'.
Proof. intros H. unfold term_pattern. by rewrite (lit_nocase_lower _ _ H). Qed.

Lemma candidates_same_edit tex_text term name name' (ms : list rmatch) :
  Forall2 same_edit (omap (candidate tex_text term name) ms)
                    (omap (candidate tex_text term name') ms).
Proof.
  induction ms as [|m ms IH]; [constructor|]. cbn [omap list_omap].
  destruct (candidate tex_text term name m) as [r|] eqn:H1;
    destruct (candidate tex_text term name' m) as [r'|] eqn:H2; [| | |done].
  - apply candidate_Some in H1 as (-> & _), H2 as (-> & _). by constructor.
  - apply candidate_Some in H1 as (_ & Ha & Hb).
    assert (candidate tex_text term name' m
            = Some (Replacement (m_start m) (m_end m) (gls_ref term) name'))
      by (by apply candidate_Some).
    congruence.
  - apply candidate_Some in H2 as (_ & Ha & Hb).
    assert (candidate tex_text term name m
            = Some (Replacement (m_start m) (m_end m) (gls_ref term) name))
      by (by apply candidate_Some).
    congruence.
Qed.

Lemma collect_same_edit tex_text (g g' : list (str * str)) :
  same_up_to_case g g' →
  Forall2 same_edit (collect tex_text g) (collect tex_text g').
Proof.
  unfold collect. induction 1 as [|[t n] [t' n'] g g' [Ht Hn] Hg IH]; [constructor|].
  simpl in *. subst t'. apply Forall2_app; [|done].
  rewrite (term_pattern_lower _ _ Hn). apply candidates_same_edit.
Qed.

Lemma sort_by_same_edit before (l l' : list replacement) :
  Forall2 same_edit l l' →
  Forall2 same_edit (sort_by before r_start l) (sort_by before r_start l').
Proof.
  induction 1 as [|x x' l l' Hx Hl IH]; [constructor|]. simpl.
  revert IH. generalize (sort_by before r_start l) (sort_by before r_start l').
  intros s s'. induction 1 as [|y y' s s' Hy Hs IHs]; simpl.
  - constructor; [done|constructor].
  - destruct Hx as (Hx1 & ?), Hy as (Hy1 & ?). rewrite <- Hx1, <- Hy1.
    destruct (before (r_start y) (r_start x)).
    + constructor; [done|]. apply IHs.
    + constructor; [done|]. by constructor.
Qed.

Lemma claimed_same_edit occ r r' : same_edit r r' → claimed occ r = claimed occ r'.
Proof. intros (H1 & H2 & _). unfold claimed. by rewrite H1, H2. Qed.

Lemma apply_same_edit (l l' : list replacement) (st st' : progress) :
  Forall2 same_edit l l' →
  updated_text st = updated_text st' →
  occupied st = occupied st' →
  (changes st).*2 = (changes st').*2 →
  updated_text (foldl apply_one st l) = updated_text (foldl apply_one st' l')
  ∧ (changes (foldl apply_one st l)).*2 = (changes (foldl apply_one st' l')).*2.
Proof.
  intros Hl. revert st st'.
  induction Hl as [|r r' l l' Hr Hl IH]; intros st st' Ht Ho Hc; [done|].
  simpl. apply IH; unfold apply_one; rewrite (claimed_same_edit _ _ _ Hr), Ho;
    destruct (claimed (occupied st') r'); simpl; try done.
  - destruct Hr as (-> & -> & ->). by rewrite Ht.
  - destruct Hr as (H1 & H2 & _). unfold claim. by rewrite H1, H2.
  - destruct Hr as (H1 & _). rewrite !fmap_app, Hc. simpl. by rewrite H1.
Qed.

Lemma sort_snd_offsets (l l' : list (str * nat)) :
  l.*2 = l'.*2 →
  (sort_by ascending snd l).*2 = (sort_by ascending snd l').*2.
Proof.
  revert l'. induction l as [|x l IH]; intros [|x' l']; try done.
  intros [= Hx Hl]. simpl. specialize (IH l' Hl). revert IH.
  generalize (sort_by ascending snd l) (sort_by ascending snd l').
  intros s. induction s as [|y s IHs]; intros [|y' s']; try done.
  - intros _. simpl. by rewrite Hx.
  - intros [= Hy Hs]. simpl. rewrite Hx, Hy.
    destruct (ascending y'.2 x'.2); simpl.
    + f_equal; [done|]. by apply IHs.
    + by rewrite Hx, Hy, Hs.
Qed.

(** X14: the letter case in which a display name is written does not
    matter: two mappings with the same keys and display names equal up
    to case give the same rewritten text and the same change offsets. *)
Theorem name_case_irrelevant (tex_text : str) (g g' : list (str * str)) :
  same_up_to_case g g' →
  (replace_terms_with_gls tex_text g).1 = (replace_terms_with_gls tex_text g').1
  ∧ (replace_terms_with_gls tex_text g).2.*2
    = (replace_terms_with_gls tex_text g').2.*2.
Proof.
  intros Hg. unfold replace_terms_with_gls. cbn [fst snd].
  destruct (apply_same_edit
              (sort_by descending r_start (collect tex_text g))
              (sort_by descending r_start (collect tex_text g'))
              (Progress tex_text ∅ []) (Progress tex_text ∅ []))
    as [Ht Hc]; [|done..|].
  - by apply sort_by_same_edit, collect_same_edit.
  - split; [done|]. by apply sort_snd_offsets.
Qed.

Lemma name_case_irrelevant_witness :
  (replace_terms_with_gls cat_text [(chars "c", chars "cat")]).1
  = (replace_terms_with_gls cat_text [(chars "c", chars "CaT")]).1.
Proof.
  apply name_case_irrelevant. unfold same_up_to_case.
  repeat constructor.
Defined.

(** The condition on display names in the assembly of the text is needed:
    with an empty display name, zero-width replacements inside the span
    of [a b] are spliced in first, and the later splice of [a b] at its
    original offsets cuts through what they put in. *)
Lemma empty_name_breaks_offsets :
  (replace_terms_with_gls (chars "a b") empty_beside_glossary).1
  = chars "\gls{k2}\gls{k1}ls{k2} \gls{k2}b\gls{k2}".
Proof. vm_compute. reflexivity. Qed.

(** * The second run on the output of the first *)

(** ** Reading the text at an offset *)



(** ** The reference pattern matches where a reference is read *)

Section StarIntro.
Context {R : Type} (p : ascii → bool) (k : cursor → option R).

End StarIntro.


(** Scanning with a pattern whose matches do not depend on whether an
    empty match is allowed: a match that some offset admits is returned,
    unless it starts strictly inside a match that is returned. *)
Section SameMatches.
Variables (r : regex) (text : str).
Hypothesis match_indep :
  ∀ s adv adv', s ≤ length text →
                match_at r adv (cursor_at text s)
                = match_at r adv' (cursor_at text s).

End SameMatches.




(** ** The returned text, stretch by stretch *)






(** ** Occurrences in a copied stretch *)









(** ** The second run *)




